(** * Retro-Radio: the position-resolution engine of [retro_radio.py]

    A shallow embedding of the station table loader ([read_csv],
    [csv_sanity_check]), the dense position lookup
    ([populate_postostation]), the encoder callback
    ([callback_rotary_encoder], [play]) and the position file
    ([write_position_files], [from position import start_position]),
    followed by the properties of the specification that concern them.

    Python values are modelled as follows: an [int] is a [Z]; a [list] is a
    Rocq list read and written through [getitem] and [setitem], which
    implement Python's index rule (negative indices count from the end,
    anything else out of range raises [IndexError]); an exception is the
    [Raise] branch of [result]; [exit()] is the exception [SystemExit]
    carrying what was printed just before. *)

From Stdlib Require Import ZArith String Ascii List Lia Bool.
From Stdlib Require Import DecimalString DecimalPos DecimalZ.
From stdpp Require Import base list.

Local Open Scope Z_scope.

(** ** Exceptions and results *)

(** What the loader prints before calling [exit()]. *)
Inductive report : Type :=
| BoundaryNotInteger (row : list string)
    (* Error in csv file line {row}: boundary values must be integers *)
| CheckBoundaries (i : Z)
    (* Error in csv file line {i}: check boundaries *)
| CheckBoundariesPair (i j : Z).
    (* Error in csv file line {i} / {i + 1}: check boundaries *)

Inductive exn : Type :=
| IndexError
| SyntaxError
| ImportError
| SystemExit (r : report).

Inductive result (A : Type) : Type :=
| Ok (a : A)
| Raise (e : exn).
Arguments Ok {A} a.
Arguments Raise {A} e.

#[export] Instance result_ret : MRet result := fun A a => Ok a.
#[export] Instance result_bind : MBind result := fun A B f m =>
  match m with
  | Ok a => f a
  | Raise e => Raise e
  end.

(** [for x in xs: s = body x s], leaving the loop at the first exception. *)
Fixpoint for_in {A S : Type} (xs : list A) (body : A → S → result S) (s : S)
  : result S :=
  match xs with
  | [] => Ok s
  | x :: rest =>
      match body x s with
      | Ok s' => for_in rest body s'
      | Raise e => Raise e
      end
  end.

(** ** Python lists *)

(** [range(a, b)] *)
Definition py_range (a b : Z) : list Z := seqZ a (b - a).

(** [len(l)] *)
Definition len {A : Type} (l : list A) : Z := Z.of_nat (length l).

(** The cell a Python index designates, if any. *)
Definition py_index {A : Type} (l : list A) (i : Z) : option nat :=
  if (0 <=? i) && (i <? len l) then Some (Z.to_nat i)
  else if (- len l <=? i) && (i <? 0) then Some (Z.to_nat (len l + i))
  else None.

(** [l[i]] *)
Definition getitem {A : Type} (l : list A) (i : Z) : result A :=
  match py_index l i with
  | Some k =>
      match l !! k with
      | Some x => Ok x
      | None => Raise IndexError
      end
  | None => Raise IndexError
  end.

(** [l[i] = x] *)
Definition setitem {A : Type} (l : list A) (i : Z) (x : A) : result (list A) :=
  match py_index l i with
  | Some k => Ok (<[k:=x]> l)
  | None => Raise IndexError
  end.

(** ** Constants of the script *)

Definition nl : string := String (ascii_of_nat 10) EmptyString.

Definition ABSOLUTE_PATH : string := "/home/pi/rustafari_radio_noserver/".
Definition POSITION_PY_FILE : string := ABSOLUTE_PATH ++ "position.py".
Definition PLAYLIST_CSV_FILE : string := ABSOLUTE_PATH ++ "playlist.csv".
Definition NOISE_FILE : string := ABSOLUTE_PATH ++ "rauschen.mp3".

Definition MIN_POS : Z := 0.
Definition MAX_POS : Z := 1020.

(** ** The station table *)

(** A row of the playlist once its two boundary columns are integers:
    [[low, upp, col 2, col 3, ...]]. [cols] holds the columns from index 2
    on, so [row[2]] is the head of [cols]. *)
Record station : Type := Station { low : Z; upp : Z; cols : list string }.

(** [row[2]] *)
Definition col2 (row : station) : result string :=
  match cols row with
  | url :: _ => Ok url
  | [] => Raise IndexError
  end.

(** [[-1, -1, NOISE_FILE]] *)
Definition noise : station := Station (-1) (-1) [NOISE_FILE].

(** [csv_sanity_check(stations)] *)
Definition csv_sanity_check (stations : list station) : result unit :=
  for_in (py_range 0 (len stations - 1))
    (fun i _ =>
       si ← getitem stations i;
       if low si >? upp si then Raise (SystemExit (CheckBoundaries i))
       else
         sj ← getitem stations (i + 1);
         if upp si >=? low sj
         then Raise (SystemExit (CheckBoundariesPair i (i + 1)))
         else Ok tt)
    tt.

Section ReadCsv.

(** Python's [int()] applied to a [str]: [None] stands for [ValueError]. *)
Variable int : string → option Z.

(** The body of the reading loop: the [try] block converts columns 0 and
    1; a row with fewer than two columns raises inside the [try] as well
    and ends in the same handler. *)
Definition convert (row : list string) : result station :=
  match row with
  | c0 :: c1 :: rest =>
      match int c0, int c1 with
      | Some a, Some b => Ok (Station a b rest)
      | _, _ => Raise (SystemExit (BoundaryNotInteger row))
      end
  | _ => Raise (SystemExit (BoundaryNotInteger row))
  end.

(** [for row in playlist: ...; stations.append(row)] *)
Definition read_rows (playlist : list (list string)) : result (list station) :=
  for_in playlist
    (fun row stations => st ← convert row; Ok (stations ++ [st]))
    [].

(** [read_csv()], on the rows the csv reader yields for the playlist. *)
Definition read_csv (playlist : list (list string)) : result (list station) :=
  stations ← read_rows playlist;
  _ ← csv_sanity_check stations;
  Ok (stations ++ [noise]).

End ReadCsv.

(** ** The position lookup *)

(** [populate_postostation(sl)] *)
Definition populate_postostation (sl : list station) : result (list Z) :=
  let pos2station := (fun _ => -1) <$> py_range MIN_POS (MAX_POS + 1) in
  let l := len sl in
  for_in (py_range 0 (l - 1))
    (fun line_nr pos2station =>
       row ← getitem sl line_nr;
       let low := low row in
       row' ← getitem sl line_nr;
       let upp := upp row' in
       for_in (py_range low (upp + 1))
         (fun p pos2station => setitem pos2station p line_nr)
         pos2station)
    pos2station.

(** ** The running script: mutable globals and the outside world *)

(** What the script does to its collaborators, in the order it does it. *)
Inductive event : Type :=
| player_stop                          (* player.stop() *)
| media_new (url : string)             (* instance.media_new(url) *)
| player_set_media (url : string)      (* player.set_media(media) *)
| player_play                          (* player.play() *)
| file_write (path content : string).  (* open(path, "w") ... write(content) *)

(** The global [pos], the content of [position.py], and the trace of
    events so far (oldest first). *)
Record world : Type := World {
  pos : Z;
  position_py : string;
  trace : list event
}.

(** Statements of the script: they change the world and may raise. *)
Definition M (A : Type) : Type := world → result A * world.

#[export] Instance M_ret : MRet M := fun A a w => (Ok a, w).
#[export] Instance M_bind : MBind M := fun A B f m w =>
  match m w with
  | (Ok a, w') => f a w'
  | (Raise e, w') => (Raise e, w')
  end.

Definition lift {A : Type} (r : result A) : M A := fun w => (r, w).
Definition get_pos : M Z := fun w => (Ok (pos w), w).
Definition set_pos (p : Z) : M unit :=
  fun w => (Ok tt, World p (position_py w) (trace w)).
Definition emit (e : event) : M unit :=
  fun w => (Ok tt, World (pos w) (position_py w) (trace w ++ [e])).
Definition write_file_position_py (content : string) : M unit :=
  fun w => (Ok tt,
            World (pos w) content
                  (trace w ++ [file_write POSITION_PY_FILE content])).

(** [str(n)] for an [int]. *)
Definition str (n : Z) : string := NilZero.string_of_int (Z.to_int n).

(** [play(url)] *)
Definition play (url : string) : M unit :=
  _ ← emit player_stop;
  _ ← emit (media_new url);
  _ ← emit (player_set_media url);
  emit player_play.

(** [write_position_files()] *)
Definition position_py_content (p : Z) : string :=
  ("#!/usr/bin/env python" ++ nl ++ nl ++ "start_position = " ++ str p)%string.

Definition write_position_files : M unit :=
  p ← get_pos;
  write_file_position_py (position_py_content p).

Section Radio.

(** The globals [station_list] and [posToStation], assigned once at
    start-up and only read afterwards. *)
Variable station_list : list station.
Variable posToStation : list Z.

(** [callback_rotary_encoder(way)] *)
Definition callback_rotary_encoder (way : Z) : M unit :=
  p ← get_pos;
  let way :=
    if ((p >=? MAX_POS) && (way =? 1)) || ((p <=? MIN_POS) && (way =? -1))
    then 0 else way in
  here ← lift (getitem posToStation p);
  there ← lift (getitem posToStation (p + way));
  _ ← (if negb (here =? there) then
         _ ← set_pos (p + way);
         p' ← get_pos;
         line ← lift (getitem posToStation p');
         row ← lift (getitem station_list line);
         url ← lift (col2 row);
         play url
       else
         set_pos (p + way));
  write_position_files.

(** The encoder delivering the steps [ways] one after the other; an
    exception in a callback ends the run. *)
Fixpoint run (ways : list Z) : M unit :=
  match ways with
  | [] => mret tt
  | way :: rest => _ ← callback_rotary_encoder way; run rest
  end.

(** The last statement of the start-up sequence:
    [play(station_list[posToStation[pos]][2])] *)
Definition play_saved_position : M unit :=
  p ← get_pos;
  line ← lift (getitem posToStation p);
  row ← lift (getitem station_list line);
  url ← lift (col2 row);
  play url.

End Radio.

(** ** Reading [position.py] back *)

(** [from position import start_position] runs the module [position.py].
    The model executes the statements [write_position_files] can produce:
    comment lines, blank lines and an assignment of a decimal integer to
    [start_position]; any other line is reported as [SyntaxError]. *)

Fixpoint split_lines_aux (s : string) (cur : string) : list string :=
  match s with
  | EmptyString => [cur]
  | String c rest =>
      if Ascii.eqb c (ascii_of_nat 10)
      then cur :: split_lines_aux rest EmptyString
      else split_lines_aux rest (cur ++ String c EmptyString)%string
  end.

Definition split_lines (s : string) : list string :=
  split_lines_aux s EmptyString.

Fixpoint strip_prefix (pre s : string) : option string :=
  match pre, s with
  | EmptyString, _ => Some s
  | String a pre', String b s' =>
      if Ascii.eqb a b then strip_prefix pre' s' else None
  | String _ _, EmptyString => None
  end.

(** One line of the module; the state is the binding of [start_position]. *)
Definition exec_line (line : string) (binding : option Z) : result (option Z) :=
  match line with
  | EmptyString => Ok binding
  | String "#" _ => Ok binding
  | _ =>
      match strip_prefix "start_position = " line with
      | Some literal =>
          match NilZero.int_of_string literal with
          | Some d =>
              if String.eqb (NilZero.string_of_int d) literal
              then Ok (Some (Z.of_int d))
              else Raise SyntaxError
          | None => Raise SyntaxError
          end
      | None => Raise SyntaxError
      end
  end.

Definition import_start_position (src : string) : result Z :=
  binding ← for_in (split_lines src) exec_line None;
  match binding with
  | Some z => Ok z
  | None => Raise ImportError
  end.

(** ** Start-up: the module-level statements up to the first [play] *)

Record radio : Type := Radio {
  station_list : list station;
  posToStation : list Z
}.

Definition startup (int : string → option Z) (playlist : list (list string))
  : result radio :=
  sl ← read_csv int playlist;
  p2s ← populate_postostation sl;
  Ok (Radio sl p2s).

(** A plain decimal reading of a boundary column, for the worked examples:
    it agrees with Python's [int()] on the strings [str] produces. *)
Definition int_decimal (s : string) : option Z :=
  Z.of_int <$> NilZero.int_of_string s.

(** ** Vocabulary of the statements *)

(** [posToStation[p]]: the cell of the lookup at position [p]. *)
Definition resolve (r : radio) (p : Z) : result Z :=
  getitem (posToStation r) p.

(** [station_list[posToStation[p]]] and [station_list[posToStation[p]][2]] *)
Definition station_at (r : radio) (p : Z) : result station :=
  line ← resolve r p;
  getitem (station_list r) line.

Definition url_at (r : radio) (p : Z) : result string :=
  row ← station_at r p;
  col2 row.

(** The step after the guard at the head of the callback, in the words of
    the specification: no movement past either end of the scale. *)
Definition effective_step (p way : Z) : Z :=
  if ((p =? MAX_POS) && (way =? 1)) || ((p =? MIN_POS) && (way =? -1))
  then 0 else way.

(** The events of one [play(url)]. *)
Definition playback (url : string) : list event :=
  [player_stop; media_new url; player_set_media url; player_play].

(** The single write of [write_position_files()] at position [p]. *)
Definition persist (p : Z) : event :=
  file_write POSITION_PY_FILE (position_py_content p).

(** Position [p] lies in the range of [st]. *)
Definition covers (st : station) (p : Z) : Prop := low st ≤ p ≤ upp st.

(** Both boundaries of [st] are positions of the scale. *)
Definition on_scale (st : station) : Prop :=
  MIN_POS ≤ low st ∧ upp st ≤ MAX_POS.

(** Cell value [v] is what the first [k] rows leave at position [p] when
    each row writes its own range: [v] is the sentinel or a row below [k]
    covering [p], and no later row below [k] covers [p]. *)
Definition last_writer (sl : list station) (k p v : Z) : Prop :=
  (v = -1 ∨ (0 ≤ v < k ∧ ∃ st, sl !! Z.to_nat v = Some st ∧ covers st p)) ∧
  (∀ j st, v < j < k → sl !! Z.to_nat j = Some st → ¬ covers st p).

(** Number of cells of the lookup. *)
Definition scale_size : nat := Z.to_nat (MAX_POS + 1 - MIN_POS).

(** The rows the loops of [populate_postostation] visit: all but the last. *)
Definition real_rows (sl : list station) : list station :=
  take (length sl - 1) sl.

(** What the callback relies on in the two globals: one cell per position,
    each cell the sentinel or the number of a row before the last, and a
    stream url in every row of the list, whose last row is the noise entry. *)
Definition well_formed (r : radio) : Prop :=
  length (posToStation r) = scale_size ∧
  Forall (fun v => v = -1 ∨ 0 ≤ v < len (station_list r) - 1) (posToStation r) ∧
  ∃ stations,
    station_list r = stations ++ [noise] ∧
    Forall (fun st => cols st ≠ []) stations.

(** A position of the scale. *)
Definition on_dial (p : Z) : Prop := MIN_POS ≤ p ≤ MAX_POS.

(** The playlist rows have the three required columns. *)
Definition has_url (row : list string) : Prop := (3 ≤ length row)%nat.

(** A step the encoder can deliver, or the idle step. *)
Definition is_step (way : Z) : Prop := way = -1 ∨ way = 0 ∨ way = 1.

(** ** Worked playlists *)

(** Two stations side by side, the first ending where the second begins. *)
Definition two_stations : list (list string) :=
  [["0"; "99"; "A"]; ["100"; "199"; "B"]]%string.

Definition two_stations_radio : radio :=
  Eval vm_compute in
    match startup int_decimal two_stations with
    | Ok r => r
    | Raise _ => Radio [] []
    end.

(** Two rows whose ranges overlap. *)
Definition overlapping : list (list string) :=
  [["0"; "50"; "A"]; ["40"; "90"; "B"]]%string.

(** Two rows whose ranges overlap, the first with its boundaries swapped. *)
Definition swapped_then_overlapping : list (list string) :=
  [["50"; "40"; "A"]; ["30"; "90"; "B"]]%string.

(** A single row with its boundaries swapped. *)
Definition swapped_last : list (list string) := [["5"; "3"; "A"]]%string.

(** A single row that starts below the scale. *)
Definition below_scale : list (list string) := [["-5"; "3"; "A"]]%string.

Definition below_scale_radio : radio :=
  Eval vm_compute in
    match startup int_decimal below_scale with
    | Ok r => r
    | Raise _ => Radio [] []
    end.

(** Two stations, the first without the url column. *)
Definition missing_url : list (list string) :=
  [["0"; "99"]; ["100"; "199"; "B"]]%string.

Definition missing_url_radio : radio :=
  Eval vm_compute in
    match startup int_decimal missing_url with
    | Ok r => r
    | Raise _ => Radio [] []
    end.

(** A single row that ends above the scale. *)
Definition above_scale : list (list string) := [["1000"; "1030"; "A"]]%string.

(** ** The button, the whole script, and further vocabulary *)

(** [callback_button(pin)]; [is_playing] is what [player.is_playing()]
    answers when the callback asks. *)
Definition callback_button (is_playing : Z) (pin : Z) : M unit :=
  if is_playing =? 1 then emit player_stop else emit player_play.

(** What the two registered callbacks are called with. *)
Inductive input : Type :=
| turn (way : Z)
| press (pin is_playing : Z).

(** Callbacks run one after the other, in the order of [inputs]; an
    exception in a callback ends the sequence. *)
Fixpoint serve (sl : list station) (p2s : list Z) (inputs : list input)
  : M unit :=
  match inputs with
  | [] => mret tt
  | turn way :: rest =>
      _ ← callback_rotary_encoder sl p2s way; serve sl p2s rest
  | press pin is_playing :: rest =>
      _ ← callback_button is_playing pin; serve sl p2s rest
  end.

(** The steps among the inputs. *)
Definition turns (inputs : list input) : list Z :=
  omap (fun i => match i with turn way => Some way | press _ _ => None end)
       inputs.

(** The module-level statements in order: the import of [start_position],
    [pos = start_position], the two globals, and the first [play]. The
    result is the radio and the world when the script reaches its idle
    loop. *)
Definition script (int : string → option Z) (playlist : list (list string))
    (file : string) : result (radio * world) :=
  start_position ← import_start_position file;
  r ← startup int playlist;
  match play_saved_position (station_list r) (posToStation r)
          (World start_position file []) with
  | (Ok _, w) => Ok (r, w)
  | (Raise e, _) => Raise e
  end.

(** The [try] block of the reading loop succeeds on [row]. *)
Definition convertible (int : string → option Z) (row : list string) : bool :=
  match row with
  | c0 :: c1 :: _ => bool_decide (is_Some (int c0)) && bool_decide (is_Some (int c1))
  | _ => false
  end.

(** The contents written to the position file along a trace. *)
Definition persisted (t : list event) : list string :=
  omap (fun e => match e with file_write _ content => Some content | _ => None end)
       t.

(** The calls to the player along a trace. *)
Definition is_player_call (e : event) : bool :=
  match e with
  | file_write _ _ => false
  | _ => true
  end.

Definition player_calls (t : list event) : list event :=
  List.filter is_player_call t.

(** The positions a sequence of steps visits from [p], clamped as the
    specification words it. *)
Fixpoint trajectory (p : Z) (ways : list Z) : list Z :=
  match ways with
  | [] => []
  | way :: rest =>
      (p + effective_step p way) :: trajectory (p + effective_step p way) rest
  end.

(** The cell of position [p] is among those the loop of row [st] writes:
    [p] itself is in the range, or the negative index [p - len] is. *)
Definition reaches (st : station) (p : Z) : Prop :=
  covers st p ∨ covers st (p - Z.of_nat scale_size).

(** [last_writer] with [reaches] in place of [covers]. *)
Definition last_reaching (sl : list station) (k p v : Z) : Prop :=
  (v = -1 ∨ (0 ≤ v < k ∧ ∃ st, sl !! Z.to_nat v = Some st ∧ reaches st p)) ∧
  (∀ j st, v < j < k → sl !! Z.to_nat j = Some st → ¬ reaches st p).

(** The range of [st] is empty or fits the indices a list of [scale_size]
    cells accepts, negative ones included. *)
Definition indexable (st : station) : Prop :=
  low st ≤ upp st → - Z.of_nat scale_size ≤ low st ∧ upp st ≤ MAX_POS.

(** The predicates on positions, steps and rows are decidable. *)
#[export] Instance covers_dec st p : Decision (covers st p).
Proof. unfold covers. apply _. Defined.
#[export] Instance on_scale_dec st : Decision (on_scale st).
Proof. unfold on_scale. apply _. Defined.
#[export] Instance on_dial_dec p : Decision (on_dial p).
Proof. unfold on_dial. apply _. Defined.
#[export] Instance is_step_dec way : Decision (is_step way).
Proof. unfold is_step. apply _. Defined.
#[export] Instance has_url_dec row : Decision (has_url row).
Proof. unfold has_url. apply _. Defined.

(** ** Python lists: indexing lemmas *)

Section Indexing.
Context {A : Type}.
Implicit Types (l : list A) (i : Z) (x : A).

Lemma py_index_nonneg l i :
  0 ≤ i < len l → py_index l i = Some (Z.to_nat i).
Proof.
  intros Hi. unfold py_index.
  destruct (Z.leb_spec 0 i), (Z.ltb_spec i (len l)); simpl; auto; lia.
Qed.

Lemma py_index_bound l i k :
  py_index l i = Some k → (k < length l)%nat.
Proof.
  unfold py_index, len.
  destruct (Z.leb_spec 0 i), (Z.ltb_spec i (Z.of_nat (length l))); simpl;
    try (intros [= <-]; lia).
  all: destruct (Z.leb_spec (- Z.of_nat (length l)) i), (Z.ltb_spec i 0);
    simpl; intros [= <-]; lia.
Qed.

Lemma py_index_too_large l i : len l ≤ i → py_index l i = None.
Proof.
  intros Hi. unfold py_index. pose proof (Nat2Z.is_nonneg (length l)).
  unfold len in *.
  destruct (Z.leb_spec 0 i), (Z.ltb_spec i (Z.of_nat (length l))); simpl;
    try lia.
  all: destruct (Z.leb_spec (- Z.of_nat (length l)) i), (Z.ltb_spec i 0);
    simpl; auto; lia.
Qed.

Lemma getitem_nonneg l i :
  0 ≤ i < len l →
  ∃ x, l !! Z.to_nat i = Some x ∧ getitem l i = Ok x.
Proof.
  intros Hi. unfold getitem. rewrite py_index_nonneg by done.
  destruct (lookup_lt_is_Some_2 l (Z.to_nat i)) as [x Hx].
  { unfold len in Hi. lia. }
  exists x. by rewrite Hx.
Qed.

Lemma getitem_lookup l i x :
  0 ≤ i → l !! Z.to_nat i = Some x → getitem l i = Ok x.
Proof.
  intros Hi Hx. apply lookup_lt_Some in Hx as Hlt.
  unfold getitem. rewrite py_index_nonneg by (unfold len; lia).
  by rewrite Hx.
Qed.

Lemma getitem_last l x : getitem (l ++ [x]) (-1) = Ok x.
Proof.
  unfold getitem, py_index, len. rewrite length_app. simpl.
  destruct (Z.leb_spec (- Z.of_nat (length l + 1)) (-1)); [|lia].
  simpl.
  replace (Z.to_nat (Z.of_nat (length l + 1) + -1)) with (length l) by lia.
  by rewrite list_lookup_middle.
Qed.

Lemma setitem_nonneg l i x :
  0 ≤ i < len l → setitem l i x = Ok (<[Z.to_nat i:=x]> l).
Proof. intros Hi. unfold setitem. by rewrite py_index_nonneg. Qed.

Lemma setitem_too_large l i x : len l ≤ i → setitem l i x = Raise IndexError.
Proof. intros Hi. unfold setitem. by rewrite py_index_too_large. Qed.

Lemma setitem_ok l i x l' :
  setitem l i x = Ok l' → ∃ k, (k < length l)%nat ∧ l' = <[k:=x]> l.
Proof.
  unfold setitem. destruct (py_index l i) as [k|] eqn:Hk; [|done].
  intros [= <-]. exists k. split; [|done]. by eapply py_index_bound.
Qed.

End Indexing.

(** ** Loops: invariant rules for [for_in] *)

Section Loops.
Context {A S : Type}.
Implicit Types (xs : list A) (body : A → S → result S).

(** Partial correctness: what every completed iteration preserves holds
    when the loop completes. *)
Lemma for_in_ok_inv (I : S → Prop) xs body s s' :
  I s →
  (∀ x t t', x ∈ xs → I t → body x t = Ok t' → I t') →
  for_in xs body s = Ok s' → I s'.
Proof.
  revert s. induction xs as [|x xs IH]; intros s Hs Hbody; simpl.
  - by intros [= <-].
  - destruct (body x s) as [t|e] eqn:Hx; [|done].
    apply IH.
    + eapply Hbody; [|done..]. by left.
    + intros y t1 t2 Hy. apply Hbody. by right.
Qed.

(** The first exception ends the loop. *)
Lemma for_in_raise xs body s e :
  for_in xs body s = Raise e →
  ∃ pre x post t,
    xs = pre ++ x :: post ∧ for_in pre body s = Ok t ∧ body x t = Raise e.
Proof.
  revert s. induction xs as [|x xs IH]; intros s; simpl; [done|].
  destruct (body x s) as [t|e'] eqn:Hx.
  - intros (pre & y & post & t' & -> & Hpre & Hy)%IH.
    exists (x :: pre), y, post, t'. simpl. by rewrite Hx.
  - intros [= ->]. by exists [], x, xs, s.
Qed.

Lemma for_in_app xs ys body s :
  for_in (xs ++ ys) body s =
  match for_in xs body s with
  | Ok t => for_in ys body t
  | Raise e => Raise e
  end.
Proof.
  revert s. induction xs as [|x xs IH]; intros s; simpl; [done|].
  by destruct (body x s).
Qed.

End Loops.

(** Total correctness of a counting loop: the invariant is indexed by the
    next value of the loop variable. *)
Lemma for_in_range_total {S : Type} (I : Z → S → Prop) a b
    (body : Z → S → result S) s :
  a ≤ b →
  I a s →
  (∀ i t, a ≤ i < b → I i t → ∃ t', body i t = Ok t' ∧ I (i + 1) t') →
  ∃ s', for_in (py_range a b) body s = Ok s' ∧ I b s'.
Proof.
  intros Hab. unfold py_range.
  remember (Z.to_nat (b - a)) as n eqn:Hn.
  revert a s Hab Hn. induction n as [|n IH]; intros a s Hab Hn Hs Hbody.
  - rewrite seqZ_nil by lia. simpl. exists s. split; [done|].
    by replace b with a by lia.
  - rewrite seqZ_cons by lia. simpl.
    destruct (Hbody a s) as (t & -> & Ht); [lia|done|].
    replace (Z.pred (b - a)) with (b - Z.succ a) by lia.
    apply IH; [lia|lia| |].
    + by replace (Z.succ a) with (a + 1) by lia.
    + intros i u Hi. apply Hbody. lia.
Qed.

Lemma py_range_empty a b : b ≤ a → py_range a b = [].
Proof. intros. unfold py_range. apply seqZ_nil. lia. Qed.

Lemma elem_of_py_range a b k : k ∈ py_range a b ↔ a ≤ k < b.
Proof. unfold py_range. rewrite elem_of_seqZ. lia. Qed.

(** ** The lookup built by [populate_postostation] *)

Lemma initial_lookup_length :
  length ((fun _ : Z => -1) <$> py_range MIN_POS (MAX_POS + 1)) = scale_size.
Proof. unfold py_range, scale_size. by rewrite length_fmap, length_seqZ. Qed.

Lemma initial_lookup_cells :
  Forall (fun v => v = -1) ((fun _ : Z => -1) <$> py_range MIN_POS (MAX_POS + 1)).
Proof. apply Forall_fmap, Forall_true. by intros. Qed.

(** Whatever the table, a completed build has one cell per position and
    every cell holds the sentinel or the number of a row before the last. *)
Lemma populate_cells sl p2s :
  populate_postostation sl = Ok p2s →
  length p2s = scale_size ∧
  Forall (fun v => v = -1 ∨ 0 ≤ v < len sl - 1) p2s.
Proof.
  unfold populate_postostation.
  apply (for_in_ok_inv
           (fun cells => length cells = scale_size ∧
                         Forall (fun v => v = -1 ∨ 0 ≤ v < len sl - 1) cells)).
  - split; [apply initial_lookup_length|].
    eapply Forall_impl; [apply initial_lookup_cells|]. simpl. auto.
  - intros line_nr cells cells' Hline%elem_of_py_range Hcells.
    destruct (getitem sl line_nr) as [row|]; [simpl|done].
    apply (for_in_ok_inv
             (fun t => length t = scale_size ∧
                       Forall (fun v => v = -1 ∨ 0 ≤ v < len sl - 1) t));
      [done|].
    intros p t t' _ [Hlen Hall] (k & Hk & ->)%setitem_ok.
    split; [by rewrite length_insert|].
    apply Forall_insert; [done|]. right. lia.
Qed.

(** One row writes exactly its own range, when the range is on the scale. *)
Lemma populate_row_on_scale (cells : list Z) (line_nr lo up : Z) :
  length cells = scale_size →
  MIN_POS ≤ lo → up ≤ MAX_POS →
  ∃ cells',
    for_in (py_range lo (up + 1))
      (fun p pos2station => setitem pos2station p line_nr) cells = Ok cells' ∧
    length cells' = scale_size ∧
    ∀ p, MIN_POS ≤ p ≤ MAX_POS →
         cells' !! Z.to_nat p =
         if (lo <=? p) && (p <=? up) then Some line_nr else cells !! Z.to_nat p.
Proof.
  intros Hlen Hlo Hup. unfold scale_size, MIN_POS, MAX_POS in *.
  destruct (Z.le_gt_cases lo (up + 1)) as [Hle|Hgt].
  - destruct (for_in_range_total
                (fun q t => length t = Z.to_nat (1020 + 1 - 0) ∧
                   ∀ p, 0 ≤ p ≤ 1020 →
                     t !! Z.to_nat p =
                     if (lo <=? p) && (p <? q) then Some line_nr
                     else cells !! Z.to_nat p)
                lo (up + 1)
                (fun p pos2station => setitem pos2station p line_nr) cells)
      as (cells' & Hrun & Hlen' & Hcells'); [done| | |].
    + split; [done|]. intros p Hp.
      destruct (Z.leb_spec lo p), (Z.ltb_spec p lo); simpl; auto; lia.
    + intros q t Hq [Ht Hcells].
      exists (<[Z.to_nat q:=line_nr]> t). split; [|split].
      * apply setitem_nonneg. unfold len. lia.
      * by rewrite length_insert.
      * intros p Hp. destruct (decide (p = q)) as [->|Hne].
        -- rewrite list_lookup_insert_eq by lia.
           destruct (Z.leb_spec lo q), (Z.ltb_spec q (q + 1)); simpl; auto; lia.
        -- rewrite list_lookup_insert_ne by lia. rewrite Hcells by done.
           destruct (Z.leb_spec lo p), (Z.ltb_spec p q), (Z.ltb_spec p (q + 1));
             simpl; auto; lia.
    + exists cells'. split; [done|]. split; [done|].
      intros p Hp. rewrite Hcells' by done.
      destruct (Z.leb_spec lo p), (Z.ltb_spec p (up + 1)), (Z.leb_spec p up);
        simpl; auto; lia.
  - rewrite py_range_empty by lia. exists cells. split; [done|]. split; [done|].
    intros p Hp.
    destruct (Z.leb_spec lo p), (Z.leb_spec p up); simpl; auto; lia.
Qed.

(** When every row before the last is on the scale the build completes,
    and each cell holds the last row (in table order) covering it, or the
    sentinel when no row does. *)
Lemma populate_on_scale sl :
  Forall on_scale (real_rows sl) →
  ∃ p2s,
    populate_postostation sl = Ok p2s ∧
    length p2s = scale_size ∧
    ∀ p, MIN_POS ≤ p ≤ MAX_POS →
         ∃ v, p2s !! Z.to_nat p = Some v ∧ last_writer sl (len sl - 1) p v.
Proof.
  intros Hscale. unfold populate_postostation.
  assert (Hrow : ∀ i, 0 ≤ i < len sl - 1 →
            ∃ st, sl !! Z.to_nat i = Some st ∧ getitem sl i = Ok st ∧ on_scale st).
  { intros i Hi. destruct (getitem_nonneg sl i) as (st & Hst & Hget); [lia|].
    exists st. split; [done|]. split; [done|].
    eapply Forall_lookup_1; [exact Hscale|].
    unfold real_rows. rewrite lookup_take_lt; [done|]. unfold len in Hi. lia. }
  destruct (Z.le_gt_cases 0 (len sl - 1)) as [Hle|Hgt].
  - destruct (for_in_range_total
                (fun k cells => length cells = scale_size ∧
                   ∀ p, MIN_POS ≤ p ≤ MAX_POS →
                     ∃ v, cells !! Z.to_nat p = Some v ∧ last_writer sl k p v)
                0 (len sl - 1)
                (fun line_nr pos2station =>
                   row ← getitem sl line_nr;
                   let low := low row in
                   row' ← getitem sl line_nr;
                   let upp := upp row' in
                   for_in (py_range low (upp + 1))
                     (fun p pos2station => setitem pos2station p line_nr)
                     pos2station)
                ((fun _ => -1) <$> py_range MIN_POS (MAX_POS + 1)))
      as (p2s & Hrun & Hlen & Hcells); [done| | |by exists p2s].
    + split; [apply initial_lookup_length|]. intros p Hp. exists (-1). split.
      * unfold py_range. rewrite list_lookup_fmap, lookup_seqZ_lt; [done|].
        unfold MIN_POS, MAX_POS in *. lia.
      * split; [by left|]. intros j st Hj. lia.
    + intros k cells Hk [Hlen Hcells].
      destruct (Hrow k Hk) as (st & Hst & -> & Hlo & Hup). simpl.
      destruct (populate_row_on_scale cells k (low st) (upp st))
        as (cells' & -> & Hlen' & Hcells'); [done..|].
      exists cells'. split; [done|]. split; [done|].
      intros p Hp. rewrite Hcells' by done.
      destruct (Z.leb_spec (low st) p), (Z.leb_spec p (upp st)); simpl.
      { exists k. split; [done|]. split.
        - right. split; [lia|]. exists st. by split.
        - intros j st' Hj. lia. }
      all: destruct (Hcells p Hp) as (v & Hv & Hsel & Hlater);
        exists v; split; [done|]; split;
        [destruct Hsel as [->|[Hvk Hsel]]; [by left|right; split; [lia|done]]|];
        intros j st' Hj Hst'; destruct (decide (j = k)) as [->|Hne];
        [rewrite Hst in Hst'; injection Hst' as <-; unfold covers; lia
        |eapply Hlater; [|done]; lia].
  - rewrite py_range_empty by lia. simpl.
    exists ((fun _ => -1) <$> py_range MIN_POS (MAX_POS + 1)).
    split; [done|]. split; [apply initial_lookup_length|].
    intros p Hp. exists (-1). split.
    + unfold py_range. rewrite list_lookup_fmap, lookup_seqZ_lt; [done|].
      unfold MIN_POS, MAX_POS in *. lia.
    + split; [by left|]. intros j st Hj. lia.
Qed.

(** The build raises nothing but [IndexError]. *)
Lemma getitem_raise {A : Type} (l : list A) i e :
  getitem l i = Raise e → e = IndexError.
Proof.
  unfold getitem. destruct (py_index l i) as [k|]; [|by intros [= <-]].
  destruct (l !! k); [done|by intros [= <-]].
Qed.

Lemma setitem_raise {A : Type} (l : list A) i x e :
  setitem l i x = Raise e → e = IndexError.
Proof.
  unfold setitem. destruct (py_index l i); [done|by intros [= <-]].
Qed.

Lemma populate_raise sl e :
  populate_postostation sl = Raise e → e = IndexError.
Proof.
  unfold populate_postostation.
  intros (_ & line_nr & _ & cells & _ & _ & Hrow)%for_in_raise.
  destruct (getitem sl line_nr) as [row|e'] eqn:Hget; simpl in Hrow.
  - apply for_in_raise in Hrow as (_ & p & _ & t & _ & _ & Hset).
    by eapply setitem_raise.
  - injection Hrow as <-. by eapply getitem_raise.
Qed.

Lemma py_range_middle a b k :
  a ≤ k < b → py_range a b = py_range a k ++ k :: py_range (k + 1) b.
Proof.
  intros Hk. unfold py_range.
  replace (b - a) with ((k - a) + (b - k)) by lia.
  rewrite seqZ_app by lia. f_equal.
  replace (a + (k - a)) with k by lia.
  rewrite seqZ_cons by lia. f_equal. f_equal; lia.
Qed.

(** No clamp: a row before the last whose range is not empty and reaches
    above the scale makes the build raise [IndexError]. *)
Lemma populate_above_scale sl i st :
  0 ≤ i < len sl - 1 → sl !! Z.to_nat i = Some st →
  low st ≤ upp st → MAX_POS < upp st →
  populate_postostation sl = Raise IndexError.
Proof.
  intros Hi Hst Hord Habove.
  destruct (populate_postostation sl) as [p2s|e] eqn:Hpop;
    [exfalso|by rewrite (populate_raise _ _ Hpop)].
  revert Hpop. unfold populate_postostation.
  set (body := fun (line_nr : Z) (pos2station : list Z) => _).
  assert (Hkeep : ∀ k t t', body k t = Ok t' → length t' = length t).
  { intros k t t'. subst body. simpl.
    destruct (getitem sl k) as [row|]; [simpl|done].
    apply (for_in_ok_inv (fun u => length u = length t)); [done|].
    intros p u u' _ Hu (n & _ & ->)%setitem_ok. by rewrite length_insert. }
  assert (Hfail : ∀ t t', length t = scale_size → body i t ≠ Ok t').
  { intros t t' Hlen. subst body. simpl.
    rewrite (getitem_lookup sl i st) by (done || lia). simpl.
    rewrite (py_range_middle (low st) (upp st + 1)
               (Z.max (low st) (MAX_POS + 1))) by lia.
    rewrite for_in_app.
    destruct (for_in (py_range (low st) _) _ t) as [u|] eqn:Hpre; [|done].
    apply (for_in_ok_inv (fun u => length u = scale_size)) in Hpre; [|done|].
    - simpl. rewrite setitem_too_large; [done|].
      unfold len. rewrite Hpre. unfold scale_size, MIN_POS, MAX_POS. lia.
    - intros p v v' _ Hv (n & _ & ->)%setitem_ok. by rewrite length_insert. }
  rewrite (py_range_middle 0 (len sl - 1) i) by done. rewrite for_in_app.
  destruct (for_in (py_range 0 i) body _) as [t|] eqn:Hpre; [|done].
  apply (for_in_ok_inv (fun u => length u = scale_size)) in Hpre.
  - simpl. destruct (body i t) as [t'|] eqn:Hrow; [|done].
    by apply Hfail in Hrow.
  - apply initial_lookup_length.
  - intros k u u' _ Hu Hbody. apply Hkeep in Hbody. congruence.
Qed.

(** ** What [csv_sanity_check] checks *)

Lemma for_in_unit_ok {A : Type} (xs : list A) (body : A → unit → result unit) :
  for_in xs body tt = Ok tt ↔ ∀ x, x ∈ xs → body x tt = Ok tt.
Proof.
  induction xs as [|x xs IH]; simpl.
  - split; [|done]. intros _ x Hx. by apply elem_of_nil in Hx.
  - destruct (body x tt) as [[]|e] eqn:Hx.
    + rewrite IH. split.
      * intros Hxs y [->|Hy]%elem_of_cons; auto.
      * intros Hall y Hy. apply Hall. by right.
    + split; [done|]. intros Hall. rewrite Hall in Hx; [done|by left].
Qed.

(** Where a counting loop stands when it has run through [pre]. *)
Lemma py_range_split a b pre x post :
  py_range a b = pre ++ x :: post →
  x = a + len pre ∧ x < b ∧ ∀ y, a ≤ y < x → y ∈ pre.
Proof.
  unfold py_range, len. intros Hsplit.
  assert (Hx : seqZ a (b - a) !! length pre = Some x).
  { rewrite Hsplit. apply list_lookup_middle. done. }
  apply lookup_seqZ in Hx as [-> Hlt]. split; [done|]. split; [lia|].
  intros y Hy. apply list_elem_of_lookup. exists (Z.to_nat (y - a)).
  assert (Hy' : seqZ a (b - a) !! Z.to_nat (y - a) = Some y).
  { apply lookup_seqZ. lia. }
  rewrite Hsplit, lookup_app_l in Hy' by lia. done.
Qed.

(** Inside the loop both rows of the pair exist. *)
Lemma adjacent_rows (stations : list station) i :
  0 ≤ i < len stations - 1 →
  ∃ si sj,
    stations !! Z.to_nat i = Some si ∧ stations !! S (Z.to_nat i) = Some sj ∧
    getitem stations i = Ok si ∧ getitem stations (i + 1) = Ok sj.
Proof.
  intros Hi.
  destruct (getitem_nonneg stations i) as (si & Hsi & Hgi); [lia|].
  destruct (getitem_nonneg stations (i + 1)) as (sj & Hsj & Hgj); [lia|].
  exists si, sj. replace (Z.to_nat (i + 1)) with (S (Z.to_nat i)) in Hsj by lia.
  done.
Qed.

Lemma adjacent_rows_index (stations : list station) i si sj :
  stations !! i = Some si → stations !! S i = Some sj →
  0 ≤ Z.of_nat i < len stations - 1.
Proof. intros _ Hj%lookup_lt_Some. unfold len. lia. Qed.

(** The check passes exactly when every row but the last has ordered
    boundaries and every adjacent pair is strictly separated. *)
Lemma csv_sanity_check_ok stations :
  csv_sanity_check stations = Ok tt ↔
  ∀ i si sj, stations !! i = Some si → stations !! S i = Some sj →
             low si ≤ upp si ∧ upp si < low sj.
Proof.
  unfold csv_sanity_check. rewrite for_in_unit_ok. split.
  - intros Hall i si sj Hsi Hsj.
    pose proof (adjacent_rows_index _ _ _ _ Hsi Hsj) as Hi.
    specialize (Hall (Z.of_nat i)). rewrite elem_of_py_range in Hall.
    specialize (Hall ltac:(lia)).
    destruct (adjacent_rows stations (Z.of_nat i) Hi)
      as (si' & sj' & Hsi' & Hsj' & Hgi & Hgj).
    rewrite Nat2Z.id in Hsi', Hsj'. simplify_eq.
    rewrite Hgi in Hall. simpl in Hall.
    destruct (Z.gtb_spec (low si) (upp si)); [done|].
    rewrite Hgj in Hall. simpl in Hall.
    destruct (Z.geb_spec (upp si) (low sj)); [done|]. lia.
  - intros Hall i Hi%elem_of_py_range.
    destruct (adjacent_rows stations i) as (si & sj & Hsi & Hsj & -> & Hgj);
      [lia|].
    destruct (Hall _ _ _ Hsi Hsj) as [Hord Hsep]. simpl.
    destruct (Z.gtb_spec (low si) (upp si)); [lia|].
    rewrite Hgj. simpl.
    destruct (Z.geb_spec (upp si) (low sj)); [lia|done].
Qed.

(** When the check exits it reports the first row, in table order, at
    which one of its two tests fails; the boundary test of a row comes
    before the overlap test of the pair it starts. *)
Lemma csv_sanity_check_raise stations e :
  csv_sanity_check stations = Raise e →
  ∃ i si sj,
    stations !! i = Some si ∧ stations !! S i = Some sj ∧
    (∀ j sa sb, (j < i)%nat →
       stations !! j = Some sa → stations !! S j = Some sb →
       low sa ≤ upp sa ∧ upp sa < low sb) ∧
    ((upp si < low si ∧ e = SystemExit (CheckBoundaries (Z.of_nat i))) ∨
     (low si ≤ upp si ∧ low sj ≤ upp si ∧
      e = SystemExit (CheckBoundariesPair (Z.of_nat i) (Z.of_nat i + 1)))).
Proof.
  unfold csv_sanity_check.
  intros (pre & x & post & [] & Hsplit & Hpre & Hx)%for_in_raise.
  apply py_range_split in Hsplit as (Hxpre & Hxlt & Hbelow).
  assert (Hx0 : 0 ≤ x) by (unfold len in Hxpre; lia).
  destruct (adjacent_rows stations x) as (si & sj & Hsi & Hsj & Hgi & Hgj);
    [lia|].
  exists (Z.to_nat x), si, sj. split; [done|]. split; [done|]. split.
  - intros j sa sb Hj Hsa Hsb.
    apply for_in_unit_ok with (x := Z.of_nat j) in Hpre; [|apply Hbelow; lia].
    destruct (adjacent_rows stations (Z.of_nat j))
      as (sa' & sb' & Hsa' & Hsb' & Hga & Hgb).
    { eapply adjacent_rows_index; eauto. }
    rewrite Nat2Z.id in Hsa', Hsb'. simplify_eq.
    rewrite Hga in Hpre. simpl in Hpre.
    destruct (Z.gtb_spec (low sa) (upp sa)); [done|].
    rewrite Hgb in Hpre. simpl in Hpre.
    destruct (Z.geb_spec (upp sa) (low sb)); [done|]. lia.
  - rewrite Hgi in Hx. simpl in Hx. rewrite Z2Nat.id by done.
    destruct (Z.gtb_spec (low si) (upp si)).
    { left. split; [lia|]. by injection Hx as <-. }
    rewrite Hgj in Hx. simpl in Hx.
    destruct (Z.geb_spec (upp si) (low sj)); [|done].
    right. split; [lia|]. split; [lia|]. by injection Hx as <-.
Qed.

(** The rows of an accepted playlist followed by the noise entry. *)
Lemma read_csv_ok int playlist sl :
  read_csv int playlist = Ok sl →
  ∃ stations,
    read_rows int playlist = Ok stations ∧
    csv_sanity_check stations = Ok tt ∧
    sl = stations ++ [noise].
Proof.
  unfold read_csv.
  destruct (read_rows int playlist) as [stations|]; [simpl|done].
  destruct (csv_sanity_check stations) as [[]|] eqn:Hcheck; [simpl|done].
  intros [= <-]. by exists stations.
Qed.

Lemma real_rows_snoc (stations : list station) (st : station) :
  real_rows (stations ++ [st]) = stations.
Proof.
  unfold real_rows. rewrite length_app. simpl.
  replace (length stations + 1 - 1)%nat with (length stations) by lia.
  by rewrite take_app_length.
Qed.

(** ** Rows read from the playlist *)

Lemma read_rows_ok int playlist stations :
  read_rows int playlist = Ok stations →
  Forall2 (fun row st => convert int row = Ok st) playlist stations.
Proof.
  unfold read_rows.
  assert (Hgen : ∀ acc res,
            for_in playlist
              (fun row stations => st ← convert int row; Ok (stations ++ [st]))
              acc = Ok res →
            ∃ sts, res = acc ++ sts ∧
                   Forall2 (fun row st => convert int row = Ok st) playlist sts).
  { induction playlist as [|row playlist IH]; intros acc res; simpl.
    - intros [= <-]. exists []. by rewrite app_nil_r.
    - destruct (convert int row) as [st|] eqn:Hrow; [simpl|done].
      intros (sts & -> & Hsts)%IH. exists (st :: sts).
      rewrite <- app_assoc. split; [done|]. by constructor. }
  intros (sts & -> & Hsts)%Hgen. done.
Qed.

Lemma convert_has_url int row st :
  has_url row → convert int row = Ok st → cols st ≠ [].
Proof.
  unfold has_url, convert.
  destruct row as [|c0 [|c1 [|c2 rest]]]; simpl; try lia. intros _.
  destruct (int c0), (int c1); try done. by intros [= <-].
Qed.

Lemma startup_ok int playlist r :
  startup int playlist = Ok r →
  read_csv int playlist = Ok (station_list r) ∧
  populate_postostation (station_list r) = Ok (posToStation r).
Proof.
  unfold startup.
  destruct (read_csv int playlist) as [sl|]; [simpl|done].
  destruct (populate_postostation sl) as [p2s|] eqn:Hp2s; [simpl|done].
  by intros [= <-].
Qed.

Lemma startup_well_formed int playlist r :
  startup int playlist = Ok r → Forall has_url playlist → well_formed r.
Proof.
  intros [Hcsv Hpop]%startup_ok Hurl.
  apply populate_cells in Hpop as [Hlen Hcells].
  apply read_csv_ok in Hcsv as (stations & Hrows%read_rows_ok & _ & Hsl).
  split; [done|]. split; [done|]. exists stations. split; [done|].
  clear -Hrows Hurl. induction Hrows as [|row st playlist stations Hrow _ IH].
  - constructor.
  - apply Forall_cons in Hurl as [Hrow_url Hurl]. constructor; [|by apply IH].
    by eapply convert_has_url.
Qed.

(** Every cell of a well-formed radio selects a row with a url. *)
Lemma well_formed_row r v :
  well_formed r → v ∈ posToStation r →
  ∃ row url, getitem (station_list r) v = Ok row ∧ col2 row = Ok url.
Proof.
  intros (_ & Hcells & stations & Hsl & Hurls) Hv.
  rewrite Forall_forall in Hcells. destruct (Hcells v Hv) as [->|Hrange].
  - exists noise, NOISE_FILE. rewrite Hsl. split; [apply getitem_last|done].
  - rewrite Hsl in *. unfold len in Hrange. rewrite length_app in Hrange.
    simpl in Hrange.
    destruct (lookup_lt_is_Some_2 stations (Z.to_nat v)) as [row Hrow]; [lia|].
    exists row. rewrite Forall_lookup in Hurls. specialize (Hurls _ _ Hrow).
    unfold col2. destruct (cols row) as [|url rest]; [done|]. exists url.
    split; [|done]. apply getitem_lookup; [lia|]. by apply lookup_app_l_Some.
Qed.

Lemma well_formed_resolve r p :
  well_formed r → on_dial p →
  ∃ v, resolve r p = Ok v ∧ v ∈ posToStation r.
Proof.
  intros (Hlen & _) Hp. unfold resolve, on_dial, scale_size, MIN_POS, MAX_POS in *.
  destruct (getitem_nonneg (posToStation r) p) as (v & Hv & Hget).
  { unfold len. lia. }
  exists v. split; [done|]. apply list_elem_of_lookup. eauto.
Qed.

Lemma well_formed_url_at r p :
  well_formed r → on_dial p → ∃ url, url_at r p = Ok url.
Proof.
  intros Hr Hp. destruct (well_formed_resolve r p Hr Hp) as (v & Hv & Hin).
  destruct (well_formed_row r v Hr Hin) as (row & url & Hrow & Hurl).
  exists url. unfold url_at, station_at. rewrite Hv. simpl. rewrite Hrow. done.
Qed.

(** ** One call of the callback *)

(** On the dial the guard of the callback is the clamp of the specification. *)
Lemma guard_effective_step p way :
  on_dial p →
  (if ((p >=? MAX_POS) && (way =? 1)) || ((p <=? MIN_POS) && (way =? -1))
   then 0 else way) = effective_step p way.
Proof.
  unfold on_dial, effective_step. intros Hp.
  destruct (Z.geb_spec p MAX_POS), (Z.eqb_spec p MAX_POS),
    (Z.leb_spec p MIN_POS), (Z.eqb_spec p MIN_POS); try lia; done.
Qed.

Lemma effective_step_on_dial p way :
  on_dial p → is_step way → on_dial (p + effective_step p way).
Proof.
  unfold on_dial, effective_step, is_step, MIN_POS, MAX_POS. intros Hp Hway.
  destruct (Z.eqb_spec p 1020), (Z.eqb_spec way 1), (Z.eqb_spec p 0),
    (Z.eqb_spec way (-1)); simpl; lia.
Qed.

(** The whole effect of one callback on a well-formed radio: the position
    moves by the effective step, [play] runs when the two cells differ,
    and the position file is written last. *)
Lemma callback_spec r way w :
  well_formed r → on_dial (pos w) → is_step way →
  ∃ here there url,
    resolve r (pos w) = Ok here ∧
    resolve r (pos w + effective_step (pos w) way) = Ok there ∧
    url_at r (pos w + effective_step (pos w) way) = Ok url ∧
    callback_rotary_encoder (station_list r) (posToStation r) way w =
    (Ok tt,
     World (pos w + effective_step (pos w) way)
           (position_py_content (pos w + effective_step (pos w) way))
           (trace w
            ++ (if here =? there then [] else playback url)
            ++ [persist (pos w + effective_step (pos w) way)])).
Proof.
  intros Hr Hp Hway.
  pose proof (effective_step_on_dial _ _ Hp Hway) as Hp'.
  destruct (well_formed_resolve r _ Hr Hp) as (here & Hhere & _).
  destruct (well_formed_resolve r _ Hr Hp') as (there & Hthere & Hin).
  destruct (well_formed_row r there Hr Hin) as (row & url & Hrow & Hurl).
  exists here, there, url. split; [done|]. split; [done|]. split.
  { unfold url_at, station_at. rewrite Hthere. simpl. by rewrite Hrow. }
  unfold callback_rotary_encoder, resolve in *.
  unfold mbind, M_bind, get_pos, lift. rewrite guard_effective_step by done.
  rewrite Hhere, Hthere.
  destruct (Z.eqb_spec here there) as [Heq|Hne]; cbn [negb].
  - reflexivity.
  - unfold set_pos. cbn [pos]. rewrite Hthere, Hrow, Hurl.
    unfold play, write_position_files, write_file_position_py, emit, get_pos.
    unfold mbind, M_bind. cbn [pos position_py trace].
    unfold persist, playback. by rewrite <- !app_assoc.
Qed.

(** Whatever the two globals hold, a callback leaves [pos] where it was or
    moves it by the guarded step: [pos] changes in no other way, also when
    an exception ends the callback early. *)
Lemma callback_pos sl p2s way w :
  let way' :=
    if ((pos w >=? MAX_POS) && (way =? 1)) || ((pos w <=? MIN_POS) && (way =? -1))
    then 0 else way in
  let w' := (callback_rotary_encoder sl p2s way w).2 in
  pos w' = pos w ∨ pos w' = pos w + way'.
Proof.
  unfold callback_rotary_encoder, mbind, M_bind, get_pos, lift, set_pos,
    play, emit, write_position_files, write_file_position_py.
  cbn [pos position_py trace snd].
  destruct (getitem p2s (pos w)) as [here|]; [|by left].
  destruct (getitem p2s (pos w + _)) as [there|]; [|by left].
  destruct (negb (here =? there)); cbn [pos position_py trace snd];
    [|by right].
  destruct (getitem sl there) as [row|]; [|by right].
  destruct (col2 row); by right.
Qed.

Lemma callback_on_dial sl p2s way w :
  on_dial (pos w) → is_step way →
  on_dial (pos (callback_rotary_encoder sl p2s way w).2).
Proof.
  intros Hp Hway. pose proof (callback_pos sl p2s way w) as Hpos.
  cbv zeta in Hpos. rewrite guard_effective_step in Hpos by done.
  destruct Hpos as [-> | ->]; [done|]. by apply effective_step_on_dial.
Qed.

Lemma run_on_dial sl p2s ways w :
  on_dial (pos w) → Forall is_step ways →
  on_dial (pos (run sl p2s ways w).2).
Proof.
  revert w. induction ways as [|way ways IH]; intros w Hp Hways; [done|].
  apply Forall_cons in Hways as [Hway Hways].
  pose proof (callback_on_dial sl p2s way w Hp Hway) as Hstep.
  cbn [run]. unfold mbind, M_bind.
  destruct (callback_rotary_encoder sl p2s way w) as [[[]|e] w1]; [|done].
  by apply IH.
Qed.

(** A callback whose guarded step is [0] only rewrites the position file. *)
Lemma callback_held (sl : list station) (p2s : list Z) way w :
  length p2s = scale_size → on_dial (pos w) →
  effective_step (pos w) way = 0 →
  callback_rotary_encoder sl p2s way w =
  (Ok tt,
   World (pos w) (position_py_content (pos w)) (trace w ++ [persist (pos w)])).
Proof.
  intros Hlen Hp Hheld.
  destruct (getitem_nonneg p2s (pos w)) as (here & _ & Hhere).
  { unfold on_dial, scale_size, MIN_POS, MAX_POS, len in *. lia. }
  unfold callback_rotary_encoder, mbind, M_bind, get_pos, lift.
  rewrite guard_effective_step, Hheld, Z.add_0_r, Hhere, Z.eqb_refl by done.
  reflexivity.
Qed.

Lemma run_held (sl : list station) (p2s : list Z) way n w :
  length p2s = scale_size → on_dial (pos w) →
  effective_step (pos w) way = 0 →
  ∃ w', run sl p2s (replicate n way) w = (Ok tt, w') ∧
        pos w' = pos w ∧
        trace w' = trace w ++ replicate n (persist (pos w)).
Proof.
  intros Hlen. revert w. induction n as [|n IH]; intros w Hp Hheld.
  - exists w. cbn. by rewrite app_nil_r.
  - cbn [replicate run]. unfold mbind, M_bind.
    rewrite callback_held by done.
    destruct (IH (World (pos w) (position_py_content (pos w))
                        (trace w ++ [persist (pos w)])))
      as (w' & Hrun & Hpos & Htrace); [done..|].
    exists w'. split; [done|]. split; [done|].
    rewrite Htrace. cbn [pos trace]. by rewrite <- app_assoc.
Qed.

(** ** The position file read back *)

Lemma string_app_assoc (a b c : string) :
  ((a ++ b) ++ c)%string = (a ++ (b ++ c))%string.
Proof. induction a as [|x a IH]; simpl; [done|]. by rewrite IH. Qed.

Lemma split_lines_aux_uint d cur :
  split_lines_aux (NilEmpty.string_of_uint d) cur =
  [(cur ++ NilEmpty.string_of_uint d)%string].
Proof.
  revert cur. induction d; intros cur; cbn [NilEmpty.string_of_uint split_lines_aux];
    [induction cur; simpl; congruence|..];
    (change (Ascii.eqb _ (ascii_of_nat 10)) with false; cbv iota;
     rewrite IHd, string_app_assoc; reflexivity).
Qed.

Lemma split_lines_aux_nilzero d cur :
  split_lines_aux (NilZero.string_of_uint d) cur =
  [(cur ++ NilZero.string_of_uint d)%string].
Proof.
  destruct d; try exact (split_lines_aux_uint _ cur). reflexivity.
Qed.

Lemma split_lines_aux_str x cur :
  split_lines_aux (str x) cur = [(cur ++ str x)%string].
Proof.
  unfold str.
  destruct (Z.to_int x) as [d|d]; cbn [NilZero.string_of_int].
  - apply split_lines_aux_nilzero.
  - cbn [split_lines_aux]. change (Ascii.eqb _ (ascii_of_nat 10)) with false.
    cbv iota. by rewrite split_lines_aux_nilzero, string_app_assoc.
Qed.

Lemma int_of_string_str x :
  NilZero.int_of_string (str x) = Some (Z.to_int x).
Proof.
  unfold str. apply NilZero.isi.
  - destruct x; simpl; try done. intros [= H]. by apply Unsigned.to_uint_nonnil in H.
  - destruct x; simpl; try done. intros [= H]. by apply Unsigned.to_uint_nonnil in H.
Qed.

Lemma split_lines_position_py (literal : string) :
  split_lines
    ("#!/usr/bin/env python" ++ nl ++ nl ++ "start_position = " ++ literal) =
  ["#!/usr/bin/env python"; ""]%string
  ++ split_lines_aux literal "start_position = ".
Proof. lazy. reflexivity. Qed.

Lemma exec_line_assignment (literal : string) binding :
  exec_line ("start_position = " ++ literal) binding =
  match NilZero.int_of_string literal with
  | Some d =>
      if String.eqb (NilZero.string_of_int d) literal
      then Ok (Some (Z.of_int d))
      else Raise SyntaxError
  | None => Raise SyntaxError
  end.
Proof. reflexivity. Qed.

(** Reading back what [write_position_files] wrote gives the position. *)
Lemma import_position_py_content x :
  import_start_position (position_py_content x) = Ok x.
Proof.
  unfold import_start_position, position_py_content.
  rewrite split_lines_position_py, split_lines_aux_str.
  cbn [app for_in].
  change (exec_line "#!/usr/bin/env python" None) with (Ok (@None Z)).
  cbv iota. change (exec_line "" None) with (Ok (@None Z)). cbv iota.
  rewrite exec_line_assignment, int_of_string_str.
  fold (str x). rewrite String.eqb_refl, DecimalZ.of_to. reflexivity.
Qed.

(** ** Accepted tables are sorted *)

(** In a table that passes the check, a row ends before every later row
    begins. *)
Lemma accepted_rows_separated stations :
  csv_sanity_check stations = Ok tt →
  ∀ i j si sj, (i < j)%nat →
    stations !! i = Some si → stations !! j = Some sj → upp si < low sj.
Proof.
  rewrite csv_sanity_check_ok. intros Hok i j. revert i.
  induction j as [|j IH]; intros i si sj Hij Hsi Hsj; [lia|].
  destruct (decide (i = j)) as [->|Hne].
  - by destruct (Hok _ _ _ Hsi Hsj).
  - destruct (lookup_lt_is_Some_2 stations j) as [sm Hsm].
    { apply lookup_lt_Some in Hsj. lia. }
    assert (upp si < low sm) by (eapply (IH i); [lia|done..]).
    destruct (Hok _ _ _ Hsm Hsj). lia.
Qed.

(** On an accepted table whose rows are on the scale, a cell of the lookup
    holds the number of the row covering its position, and the sentinel
    exactly when no row covers it. *)
Lemma lookup_on_scale int playlist sl :
  read_csv int playlist = Ok sl → Forall on_scale (real_rows sl) →
  ∃ p2s,
    populate_postostation sl = Ok p2s ∧
    length p2s = scale_size ∧
    ∀ p, on_dial p →
      ∃ v, p2s !! Z.to_nat p = Some v ∧
        ((v = -1 ∧ ∀ st, st ∈ real_rows sl → ¬ covers st p) ∨
         (0 ≤ v ∧ ∃ st, real_rows sl !! Z.to_nat v = Some st ∧ covers st p ∧
            ∀ i st', real_rows sl !! i = Some st' → covers st' p →
                     i = Z.to_nat v)).
Proof.
  intros (stations & _ & Hcheck & ->)%read_csv_ok Hscale.
  destruct (populate_on_scale _ Hscale) as (p2s & Hpop & Hlen & Hcells).
  exists p2s. split; [done|]. split; [done|].
  rewrite real_rows_snoc in *.
  assert (Hk : len (stations ++ [noise]) - 1 = len stations).
  { unfold len. rewrite length_app. simpl. lia. }
  rewrite Hk in Hcells. clear Hk.
  intros p Hp. destruct (Hcells p Hp) as (v & Hv & Hsel & Hlater).
  exists v. split; [done|].
  assert (Hlater' : ∀ j st, v < Z.of_nat j →
            stations !! j = Some st → ¬ covers st p).
  { intros j st Hj Hst. apply lookup_lt_Some in Hst as Hlt.
    apply (Hlater (Z.of_nat j)); [unfold len; lia|].
    rewrite Nat2Z.id. by apply lookup_app_l_Some. }
  destruct Hsel as [->|[Hvk (st & Hst & Hcov)]].
  - left. split; [done|].
    intros st (j & Hj)%list_elem_of_lookup. eapply Hlater'; [|done]. lia.
  - right. split; [lia|].
    rewrite lookup_app_l in Hst by (unfold len in Hvk; lia).
    exists st. split; [done|]. split; [done|].
    intros i st' Hst' Hcov'.
    destruct (Nat.lt_trichotomy i (Z.to_nat v)) as [Hlt|[->|Hgt]]; [|done|].
    + pose proof (accepted_rows_separated _ Hcheck _ _ _ _ Hlt Hst' Hst).
      unfold covers in *. lia.
    + exfalso. eapply (Hlater' i); [lia|done..].
Qed.

(** * Properties of the specification *)

(** ** The encoder step *)

(** The row a cell of a well-formed radio selects: the noise entry for the
    sentinel, the row of that number otherwise, with its url in column 2. *)
Lemma well_formed_selected r p there :
  well_formed r → on_dial p → resolve r p = Ok there →
  posToStation r !! Z.to_nat p = Some there ∧
  ∃ row url rest,
    getitem (station_list r) there = Ok row ∧
    cols row = url :: rest ∧
    ((there = -1 ∧ row = noise) ∨
     (0 ≤ there ∧ station_list r !! Z.to_nat there = Some row)).
Proof.
  intros (Hlen & Hcells & stations & Hsl & Hurls) Hp Hres. unfold resolve in Hres.
  destruct (getitem_nonneg (posToStation r) p) as (v & Hv & Hget).
  { unfold on_dial, scale_size, MIN_POS, MAX_POS, len in *. lia. }
  rewrite Hget in Hres. injection Hres as ->. split; [done|].
  rewrite Forall_lookup in Hcells. destruct (Hcells _ _ Hv) as [->|Hrange].
  - exists noise, NOISE_FILE, []. rewrite Hsl.
    split; [apply getitem_last|]. split; [done|]. by left.
  - rewrite Hsl in *. unfold len in Hrange. rewrite length_app in Hrange.
    simpl in Hrange.
    destruct (lookup_lt_is_Some_2 stations (Z.to_nat there)) as [row Hrow];
      [lia|].
    rewrite Forall_lookup in Hurls. specialize (Hurls _ _ Hrow).
    destruct (cols row) as [|url rest] eqn:Hcols; [done|].
    exists row, url, rest. apply (lookup_app_l_Some _ [noise]) in Hrow.
    split; [apply getitem_lookup; [lia|done]|]. split; [done|].
    right. split; [lia|done].
Qed.

(** C1. On a radio started from a playlist whose rows have their three
    required columns, for every position [p] of the scale and every step
    in [{-1, 0, +1}], the callback commits [pos = p + effective step] and
    calls the player exactly when the cell of [p] differs from the cell of
    the new position: in that case it runs one [play], [stop()] first and
    then the start of the url found in column 2 of the row the new cell
    selects (the row of that number, or the noise entry for the sentinel);
    when the cells are equal (both the sentinel included) it commits the
    move with no call to the player. *)
Theorem encoder_step_transition int playlist r w way :
  startup int playlist = Ok r → Forall has_url playlist →
  on_dial (pos w) → is_step way →
  ∃ here there w',
    resolve r (pos w) = Ok here ∧
    resolve r (pos w + effective_step (pos w) way) = Ok there ∧
    posToStation r !! Z.to_nat (pos w) = Some here ∧
    posToStation r !! Z.to_nat (pos w + effective_step (pos w) way)
      = Some there ∧
    callback_rotary_encoder (station_list r) (posToStation r) way w
      = (Ok tt, w') ∧
    pos w' = pos w + effective_step (pos w) way ∧
    ((here = there ∧ trace w' = trace w ++ [persist (pos w')]) ∨
     (here ≠ there ∧
      ∃ row url rest,
        ((there = -1 ∧ row = noise) ∨
         (0 ≤ there ∧ station_list r !! Z.to_nat there = Some row)) ∧
        cols row = url :: rest ∧
        url_at r (pos w') = Ok url ∧
        trace w'
        = trace w
          ++ [player_stop; media_new url; player_set_media url; player_play]
          ++ [persist (pos w')])).
Proof.
  intros Hstart Hurl Hp Hway.
  pose proof (startup_well_formed _ _ _ Hstart Hurl) as Hr.
  pose proof (effective_step_on_dial _ _ Hp Hway) as Hp'.
  destruct (callback_spec r way w Hr Hp Hway)
    as (here & there & url & Hhere & Hthere & Hurl_at & Hrun).
  destruct (well_formed_selected r _ here Hr Hp Hhere) as [Hcell _].
  destruct (well_formed_selected r _ there Hr Hp' Hthere)
    as (Hcell' & row & url' & rest & Hrow & Hcols & Hsel).
  assert (url = url') as <-.
  { unfold url_at, station_at in Hurl_at. rewrite Hthere in Hurl_at.
    simpl in Hurl_at. rewrite Hrow in Hurl_at. simpl in Hurl_at.
    unfold col2 in Hurl_at. rewrite Hcols in Hurl_at. by injection Hurl_at. }
  exists here, there. eexists. split; [done|]. split; [done|].
  split; [done|]. split; [done|].
  split; [exact Hrun|]. cbn [pos trace]. split; [done|].
  destruct (Z.eqb_spec here there) as [Heq|Hne].
  - left. by split.
  - right. split; [done|]. by exists row, url, rest.
Qed.

(** From position 99 of the two-station playlist, one step up crosses into
    the second station. *)
Lemma encoder_step_transition_witness :
  ∃ here there w',
    resolve two_stations_radio 99 = Ok here ∧
    resolve two_stations_radio (99 + effective_step 99 1) = Ok there ∧
    posToStation two_stations_radio !! Z.to_nat 99 = Some here ∧
    posToStation two_stations_radio !! Z.to_nat (99 + effective_step 99 1)
      = Some there ∧
    callback_rotary_encoder (station_list two_stations_radio)
      (posToStation two_stations_radio) 1 (World 99 "" []) = (Ok tt, w') ∧
    pos w' = 99 + effective_step 99 1 ∧
    ((here = there ∧ trace w' = [] ++ [persist (pos w')]) ∨
     (here ≠ there ∧
      ∃ row url rest,
        ((there = -1 ∧ row = noise) ∨
         (0 ≤ there ∧
          station_list two_stations_radio !! Z.to_nat there = Some row)) ∧
        cols row = url :: rest ∧
        url_at two_stations_radio (pos w') = Ok url ∧
        trace w'
        = []
          ++ [player_stop; media_new url; player_set_media url; player_play]
          ++ [persist (pos w')])).
Proof.
  apply (encoder_step_transition int_decimal two_stations two_stations_radio
           (World 99 "" []) 1).
  - vm_compute. reflexivity.
  - repeat constructor.
  - unfold on_dial, MIN_POS, MAX_POS. simpl. lia.
  - right. right. reflexivity.
Defined.

(** The scenario of the specification: at 99 a step up starts station B,
    a second step up stays on B and only rewrites the position file. *)
Example two_stations_crossing :
  run (station_list two_stations_radio) (posToStation two_stations_radio)
      [1; 1] (World 99 "" []) =
  (Ok tt,
   World 101 (position_py_content 101)
         (playback "B" ++ [persist 100] ++ [persist 101])).
Proof. vm_compute. reflexivity. Qed.

(** A row with only its two boundary columns passes [read_csv]; crossing
    into it moves [pos] and then raises [IndexError] at [row[2]], before
    the player is called and before the position file is written. *)
Example missing_url_crossing :
  startup int_decimal missing_url = Ok missing_url_radio ∧
  callback_rotary_encoder (station_list missing_url_radio)
    (posToStation missing_url_radio) (-1) (World 100 "" []) =
  (Raise IndexError, World 99 "" []).
Proof. split; vm_compute; reflexivity. Qed.

(** ** Resolving a position *)

(** C2. The playlist with the single row [-5, 3, A] is accepted and the
    lookup is built, yet position 1018, which the range [-5 .. 3] does not
    contain, selects station A instead of the noise entry: the writes at
    the negative positions [-5 .. -1] land on the last five cells of the
    lookup. *)
Theorem below_scale_wraps_around :
  startup int_decimal below_scale = Ok below_scale_radio ∧
  real_rows (station_list below_scale_radio) = [Station (-5) 3 ["A"%string]] ∧
  on_dial 1018 ∧
  ¬ covers (Station (-5) 3 ["A"%string]) 1018 ∧
  resolve below_scale_radio 1018 = Ok 0 ∧
  station_at below_scale_radio 1018 = Ok (Station (-5) 3 ["A"%string]) ∧
  url_at below_scale_radio 1018 = Ok "A"%string.
Proof.
  split; [vm_compute; reflexivity|]. split; [reflexivity|].
  split; [unfold on_dial, MIN_POS, MAX_POS; lia|].
  split; [unfold covers; simpl; lia|].
  repeat split; vm_compute; reflexivity.
Qed.

(** ** Loading the playlist *)

(** C3, as amended. For a playlist whose rows all convert: if it is
    accepted, every adjacent pair of its rows is strictly separated
    ([upp] of the first below [low] of the second, so touching ranges are
    refused); if some adjacent pair [i], [i + 1] has
    [upp i >= low (i + 1)], loading exits, reporting the first failing
    test in table order: there is a row [j <= i] before which every row
    passes both tests, and either row [j] has [low > upp] and the report
    is the boundary report of row [j], or row [j] has [low <= upp],
    overlaps row [j + 1], and the report is the overlap report of the
    pair [j], [j + 1]; it is the overlap report for [i], [i + 1] when no
    row up to [i] has [low > upp] and no earlier pair overlaps. *)
Theorem load_rejects_overlap int playlist stations :
  read_rows int playlist = Ok stations →
  (∀ sl, read_csv int playlist = Ok sl →
     sl = stations ++ [noise] ∧
     ∀ i si sj, stations !! i = Some si → stations !! S i = Some sj →
                upp si < low sj) ∧
  (∀ i si sj,
     stations !! i = Some si → stations !! S i = Some sj →
     low sj ≤ upp si →
     (∃ j sa sb,
        (j ≤ i)%nat ∧
        stations !! j = Some sa ∧ stations !! S j = Some sb ∧
        (∀ k sc sd, (k < j)%nat →
           stations !! k = Some sc → stations !! S k = Some sd →
           low sc ≤ upp sc ∧ upp sc < low sd) ∧
        ((upp sa < low sa ∧
          read_csv int playlist
            = Raise (SystemExit (CheckBoundaries (Z.of_nat j)))) ∨
         (low sa ≤ upp sa ∧ low sb ≤ upp sa ∧
          read_csv int playlist
            = Raise (SystemExit
                       (CheckBoundariesPair (Z.of_nat j) (Z.of_nat j + 1)))))) ∧
     ((∀ j sa, (j ≤ i)%nat → stations !! j = Some sa → low sa ≤ upp sa) →
      (∀ j sa sb, (j < i)%nat →
         stations !! j = Some sa → stations !! S j = Some sb →
         upp sa < low sb) →
      read_csv int playlist
        = Raise (SystemExit
                   (CheckBoundariesPair (Z.of_nat i) (Z.of_nat i + 1))))).
Proof.
  intros Hrows. unfold read_csv. rewrite Hrows. cbn [mbind result_bind].
  destruct (csv_sanity_check stations) as [[]|e] eqn:Hcheck.
  - split.
    + intros sl [= <-]. split; [done|]. intros i si sj Hsi Hsj.
      rewrite csv_sanity_check_ok in Hcheck. by destruct (Hcheck _ _ _ Hsi Hsj).
    + intros i si sj Hsi Hsj Hover. exfalso.
      rewrite csv_sanity_check_ok in Hcheck.
      destruct (Hcheck _ _ _ Hsi Hsj). lia.
  - split; [done|]. intros i si sj Hsi Hsj Hover.
    apply csv_sanity_check_raise in Hcheck
      as (j & sa & sb & Hsa & Hsb & Hbefore & Hfail).
    assert (Hji : (j ≤ i)%nat).
    { destruct (Nat.le_gt_cases j i) as [|Hlt]; [done|].
      destruct (Hbefore _ _ _ Hlt Hsi Hsj). lia. }
    split.
    + exists j, sa, sb. split; [done|]. split; [done|]. split; [done|].
      split; [done|].
      destruct Hfail as [[Hinv ->]|(Hord & Hov & ->)]; [by left|by right].
    + intros Hord Hsep.
      destruct (decide (j = i)) as [->|Hne].
      * simplify_eq. destruct Hfail as [[Hinv _]|(_ & _ & ->)]; [|done].
        specialize (Hord i sa (Nat.le_refl i) Hsa). lia.
      * exfalso. assert (Hlt : (j < i)%nat) by lia.
        specialize (Hord j sa Hji Hsa). specialize (Hsep j sa sb Hlt Hsa Hsb).
        destruct Hfail as [[Hinv _]|(_ & Hov & _)]; lia.
Qed.

(** The overlapping rows [(0, 50, A)], [(40, 90, B)] of the specification
    are refused with the overlap report for rows 0 and 1. *)
Lemma load_rejects_overlap_witness :
  read_csv int_decimal overlapping
  = Raise (SystemExit (CheckBoundariesPair 0 1)).
Proof.
  destruct (load_rejects_overlap int_decimal overlapping
              [Station 0 50 ["A"%string]; Station 40 90 ["B"%string]]
              eq_refl) as [_ Hreject].
  destruct (Hreject 0%nat (Station 0 50 ["A"%string])
              (Station 40 90 ["B"%string]) eq_refl eq_refl)
    as [_ Hfirst].
  - simpl. lia.
  - apply Hfirst.
    + intros [|[|j]] sa Hj [= <-]; simpl; lia.
    + intros j sa sb Hj. lia.
Defined.

(** C3 as stated fails: rows 0 and 1 of this playlist overlap
    ([upp 0 = 40 >= 30 = low 1]), and loading does exit, but with the
    boundary report for row 0, not with an overlap report for a pair. *)
Lemma load_overlap_reported_as_boundaries :
  read_rows int_decimal swapped_then_overlapping
    = Ok [Station 50 40 ["A"%string]; Station 30 90 ["B"%string]] ∧
  low (Station 30 90 ["B"%string]) ≤ upp (Station 50 40 ["A"%string]) ∧
  read_csv int_decimal swapped_then_overlapping
    = Raise (SystemExit (CheckBoundaries 0)) ∧
  ¬ ∃ i j, read_csv int_decimal swapped_then_overlapping
           = Raise (SystemExit (CheckBoundariesPair i j)).
Proof.
  split; [reflexivity|]. split; [simpl; lia|]. split; [reflexivity|].
  intros (i & j & H). vm_compute in H. discriminate.
Qed.

(** A playlist of one row passes the check whatever its boundaries: the
    loop of [csv_sanity_check] stops before the last row. *)
Lemma single_row_unchecked st : csv_sanity_check [st] = Ok tt.
Proof. reflexivity. Qed.

(** In an accepted table every row but the last has [low <= upp]. *)
Lemma accepted_rows_ordered int playlist sl i st :
  read_csv int playlist = Ok sl →
  real_rows sl !! i = Some st → (S i < length (real_rows sl))%nat →
  low st ≤ upp st.
Proof.
  intros (stations & _ & Hcheck & ->)%read_csv_ok. rewrite real_rows_snoc.
  intros Hst Hnext. rewrite csv_sanity_check_ok in Hcheck.
  destruct (lookup_lt_is_Some_2 stations (S i) Hnext) as [sj Hsj].
  by destruct (Hcheck _ _ _ Hst Hsj).
Qed.

(** C4. The playlist with the single row [5, 3, A] has [low > upp] in its
    last (and only) row, and [read_csv] accepts it: it returns the table
    with the noise entry appended instead of exiting. *)
Theorem swapped_last_row_accepted :
  read_csv int_decimal swapped_last = Ok [Station 5 3 ["A"%string]; noise] ∧
  upp (Station 5 3 ["A"%string]) < low (Station 5 3 ["A"%string]).
Proof. split; [reflexivity|simpl; lia]. Qed.

(** ** Building the lookup *)

(** C5, as amended. For an accepted table whose rows all have both
    boundaries on the scale, the build completes with one cell per
    position of the scale; a cell is assigned a row number only at a
    position inside that row's range, and every position inside a row's
    range is assigned that row's number. *)
Theorem build_on_scale int playlist sl :
  read_csv int playlist = Ok sl → Forall on_scale (real_rows sl) →
  ∃ p2s,
    populate_postostation sl = Ok p2s ∧
    length p2s = scale_size ∧
    (∀ p v, on_dial p → p2s !! Z.to_nat p = Some v → v ≠ -1 →
       0 ≤ v ∧ ∃ st, real_rows sl !! Z.to_nat v = Some st ∧ covers st p) ∧
    (∀ i st p, real_rows sl !! i = Some st → on_dial p → covers st p →
       p2s !! Z.to_nat p = Some (Z.of_nat i)).
Proof.
  intros Hcsv Hscale.
  destruct (lookup_on_scale _ _ _ Hcsv Hscale) as (p2s & Hpop & Hlen & Hcells).
  exists p2s. split; [done|]. split; [done|]. split.
  - intros p v Hp Hv Hreal. destruct (Hcells p Hp) as (v' & Hv' & Hsel).
    simplify_eq. destruct Hsel as [[-> _]|(Hv0 & st & Hst & Hcov & _)]; [done|].
    split; [done|]. by exists st.
  - intros i st p Hst Hp Hcov. destruct (Hcells p Hp) as (v & -> & Hsel).
    destruct Hsel as [[_ Hnone]|(Hv0 & st' & _ & _ & Huniq)].
    + exfalso. eapply Hnone; [|done]. apply list_elem_of_lookup. eauto.
    + rewrite (Huniq i st Hst Hcov). f_equal. lia.
Qed.

Lemma build_on_scale_witness :
  ∃ p2s,
    populate_postostation (station_list two_stations_radio) = Ok p2s ∧
    length p2s = scale_size ∧
    (∀ p v, on_dial p → p2s !! Z.to_nat p = Some v → v ≠ -1 →
       0 ≤ v ∧ ∃ st, real_rows (station_list two_stations_radio) !! Z.to_nat v
                     = Some st ∧ covers st p) ∧
    (∀ i st p, real_rows (station_list two_stations_radio) !! i = Some st →
       on_dial p → covers st p → p2s !! Z.to_nat p = Some (Z.of_nat i)).
Proof.
  apply (build_on_scale int_decimal two_stations).
  - reflexivity.
  - repeat constructor; simpl; unfold MIN_POS, MAX_POS; lia.
Defined.

(** C5 as stated fails: the single row [1000, 1030, A] is accepted by the
    check, and the build then raises [IndexError] at position 1021
    instead of stopping at the end of the scale. *)
Lemma build_above_scale_raises :
  read_csv int_decimal above_scale
    = Ok [Station 1000 1030 ["A"%string]; noise] ∧
  populate_postostation [Station 1000 1030 ["A"%string]; noise]
    = Raise IndexError.
Proof. split; [reflexivity|vm_compute; reflexivity]. Qed.

(** ** The position stays on the scale *)

(** C6. Whatever the two globals hold, from a position on the scale a
    callback with a step in [{-1, 0, +1}] leaves the position on the
    scale, and so does every run of such callbacks. *)
Theorem position_stays_on_dial sl p2s w :
  on_dial (pos w) →
  (∀ way, is_step way →
     on_dial (pos (callback_rotary_encoder sl p2s way w).2)) ∧
  (∀ ways, Forall is_step ways → on_dial (pos (run sl p2s ways w).2)).
Proof.
  intros Hp. split.
  - intros way Hway. by apply callback_on_dial.
  - intros ways Hways. by apply run_on_dial.
Qed.

Lemma position_stays_on_dial_witness :
  on_dial
    (pos (callback_rotary_encoder (station_list two_stations_radio)
            (posToStation two_stations_radio) 1 (World 1020 "" [])).2).
Proof.
  apply (position_stays_on_dial (station_list two_stations_radio)
           (posToStation two_stations_radio) (World 1020 "" [])).
  - unfold on_dial, MIN_POS, MAX_POS. simpl. lia.
  - right. right. reflexivity.
Defined.

(** C7. With a lookup the build returned, from [pos = MAX_POS] any number
    of steps [+1] leave [pos = MAX_POS] and make no call to the player:
    each callback only rewrites the position file. The same holds from
    [pos = MIN_POS] for steps [-1]. *)
Theorem hard_clamp sl p2s n w :
  populate_postostation sl = Ok p2s →
  (pos w = MAX_POS →
   ∃ w', run sl p2s (replicate n 1) w = (Ok tt, w') ∧
         pos w' = MAX_POS ∧
         trace w' = trace w ++ replicate n (persist MAX_POS)) ∧
  (pos w = MIN_POS →
   ∃ w', run sl p2s (replicate n (-1)) w = (Ok tt, w') ∧
         pos w' = MIN_POS ∧
         trace w' = trace w ++ replicate n (persist MIN_POS)).
Proof.
  intros [Hlen _]%populate_cells. split; intros Hpos.
  - destruct (run_held sl p2s 1 n w Hlen) as (w' & Hrun & Hpos' & Htrace).
    + rewrite Hpos. unfold on_dial, MIN_POS, MAX_POS. lia.
    + by rewrite Hpos.
    + exists w'. by rewrite <- Hpos.
  - destruct (run_held sl p2s (-1) n w Hlen) as (w' & Hrun & Hpos' & Htrace).
    + rewrite Hpos. unfold on_dial, MIN_POS, MAX_POS. lia.
    + by rewrite Hpos.
    + exists w'. by rewrite <- Hpos.
Qed.

Lemma hard_clamp_witness :
  ∃ w', run (station_list two_stations_radio) (posToStation two_stations_radio)
            (replicate 3 1) (World MAX_POS "" []) = (Ok tt, w') ∧
        pos w' = MAX_POS ∧
        trace w' = [] ++ replicate 3 (persist MAX_POS).
Proof.
  apply (hard_clamp (station_list two_stations_radio)
           (posToStation two_stations_radio) 3 (World MAX_POS "" [])).
  - vm_compute. reflexivity.
  - reflexivity.
Defined.

(** ** Persisting the position *)

(** C8. On a radio started from a playlist whose rows have their three
    required columns, every callback with a step in [{-1, 0, +1}] from a
    position on the scale ends by writing the position it committed to
    the position file, after any call to the player: the last event is
    the write of [position.py], the text written is the two header lines
    followed by [start_position = ] and the decimal of the position, and
    importing [start_position] from it gives the position back. This
    includes the callbacks whose effective step is [0], which leave the
    position unchanged and call nothing else. *)
Theorem every_step_persists int playlist r w way :
  startup int playlist = Ok r → Forall has_url playlist →
  on_dial (pos w) → is_step way →
  ∃ w' calls,
    callback_rotary_encoder (station_list r) (posToStation r) way w
      = (Ok tt, w') ∧
    trace w' = trace w ++ calls ++ [persist (pos w')] ∧
    position_py w' = position_py_content (pos w') ∧
    (effective_step (pos w) way = 0 → pos w' = pos w ∧ calls = []) ∧
    last (trace w')
    = Some (file_write "/home/pi/rustafari_radio_noserver/position.py"
              (position_py w')) ∧
    position_py w'
    = ("#!/usr/bin/env python" ++ nl ++ nl ++ "start_position = "
       ++ str (pos w'))%string ∧
    import_start_position (position_py w') = Ok (pos w').
Proof.
  intros Hstart Hurl Hp Hway.
  pose proof (startup_well_formed _ _ _ Hstart Hurl) as Hr.
  destruct (callback_spec r way w Hr Hp Hway)
    as (here & there & url & Hhere & Hthere & _ & Hrun).
  eexists. exists (if here =? there then [] else playback url).
  split; [exact Hrun|]. cbn [pos trace position_py].
  split; [done|]. split; [done|]. split; [|split; [|split]].
  - intros Hheld. rewrite Hheld, Z.add_0_r in *. split; [done|].
    rewrite Hhere in Hthere. injection Hthere as ->. by rewrite Z.eqb_refl.
  - rewrite app_assoc. apply last_snoc.
  - reflexivity.
  - apply import_position_py_content.
Qed.

Lemma every_step_persists_witness :
  ∃ w' calls,
    callback_rotary_encoder (station_list two_stations_radio)
      (posToStation two_stations_radio) (-1) (World 0 "" []) = (Ok tt, w') ∧
    trace w' = [] ++ calls ++ [persist (pos w')] ∧
    position_py w' = position_py_content (pos w') ∧
    (effective_step 0 (-1) = 0 → pos w' = 0 ∧ calls = []) ∧
    last (trace w')
    = Some (file_write "/home/pi/rustafari_radio_noserver/position.py"
              (position_py w')) ∧
    position_py w'
    = ("#!/usr/bin/env python" ++ nl ++ nl ++ "start_position = "
       ++ str (pos w'))%string ∧
    import_start_position (position_py w') = Ok (pos w').
Proof.
  apply (every_step_persists int_decimal two_stations two_stations_radio
           (World 0 "" []) (-1)).
  - vm_compute. reflexivity.
  - repeat constructor.
  - unfold on_dial, MIN_POS, MAX_POS. simpl. lia.
  - left. reflexivity.
Defined.

(** C9. For every position [x] of the scale, [write_position_files] with
    [pos = x] replaces the whole content of the position file, whatever it
    was, by the text for [x], and importing [start_position] from that
    file gives back [x]. *)
Theorem position_round_trip x w :
  on_dial x → pos w = x →
  (write_position_files w).1 = Ok tt ∧
  position_py (write_position_files w).2 = position_py_content x ∧
  import_start_position (position_py (write_position_files w).2) = Ok x.
Proof.
  intros _ <-. unfold write_position_files, write_file_position_py, get_pos.
  unfold mbind, M_bind. cbn [fst snd position_py].
  split; [done|]. split; [done|]. apply import_position_py_content.
Qed.

Lemma position_round_trip_witness :
  (write_position_files (World 1020 "start_position = 7" [])).1 = Ok tt ∧
  position_py (write_position_files (World 1020 "start_position = 7" [])).2
    = position_py_content 1020 ∧
  import_start_position
    (position_py (write_position_files (World 1020 "start_position = 7" [])).2)
    = Ok 1020.
Proof.
  apply (position_round_trip 1020 (World 1020 "start_position = 7" [])).
  - unfold on_dial, MIN_POS, MAX_POS. lia.
  - reflexivity.
Defined.

(** ** The sentinel and the noise entry *)

(** C10. An accepted table ends with the noise entry, and every cell [v]
    of a lookup built from it selects a row of the table without
    [IndexError]: the sentinel [-1] selects the last row, which is the
    noise entry, and any other value is the number of the playlist row it
    selects. *)
Theorem sentinel_selects_noise int playlist sl p2s :
  read_csv int playlist = Ok sl → populate_postostation sl = Ok p2s →
  last sl = Some noise ∧
  ∀ v, v ∈ p2s →
    (v = -1 ∧ getitem sl v = Ok noise) ∨
    (0 ≤ v ∧ ∃ st, real_rows sl !! Z.to_nat v = Some st ∧ getitem sl v = Ok st).
Proof.
  intros (stations & _ & _ & ->)%read_csv_ok [_ Hcells]%populate_cells.
  split; [apply last_snoc|]. intros v Hv.
  rewrite Forall_forall in Hcells. destruct (Hcells v Hv) as [->|Hrange].
  - left. split; [done|]. apply getitem_last.
  - right. split; [lia|]. rewrite real_rows_snoc.
    unfold len in Hrange. rewrite length_app in Hrange. simpl in Hrange.
    destruct (lookup_lt_is_Some_2 stations (Z.to_nat v)) as [st Hst]; [lia|].
    exists st. split; [done|].
    apply getitem_lookup; [lia|]. by apply lookup_app_l_Some.
Qed.

Lemma sentinel_selects_noise_witness :
  last (station_list two_stations_radio) = Some noise ∧
  ∀ v, v ∈ posToStation two_stations_radio →
    (v = -1 ∧ getitem (station_list two_stations_radio) v = Ok noise) ∨
    (0 ≤ v ∧ ∃ st, real_rows (station_list two_stations_radio) !! Z.to_nat v
                   = Some st ∧
                   getitem (station_list two_stations_radio) v = Ok st).
Proof.
  apply (sentinel_selects_noise int_decimal two_stations).
  - reflexivity.
  - vm_compute. reflexivity.
Defined.

(** * Further properties of the code *)

(** ** Reading the playlist: errors and shape *)

Lemma convertible_convert int row :
  (convertible int row = true → ∃ st, convert int row = Ok st) ∧
  (convertible int row = false →
   convert int row = Raise (SystemExit (BoundaryNotInteger row))).
Proof.
  unfold convertible, convert.
  destruct row as [|c0 [|c1 rest]]; [by split..|].
  destruct (int c0) as [a|], (int c1) as [b|]; split; try done.
  by exists (Station a b rest).
Qed.

Lemma read_rows_prefix int pre (acc : list station) :
  Forall (fun row => convertible int row = true) pre →
  ∃ sts,
    for_in pre (fun row stations => st ← convert int row; Ok (stations ++ [st]))
      acc = Ok sts.
Proof.
  revert acc. induction pre as [|row pre IH]; intros acc Hpre; simpl.
  - by exists acc.
  - apply Forall_cons in Hpre as [Hrow Hpre].
    apply convertible_convert in Hrow as [st ->]. simpl. by apply IH.
Qed.

(** X1. The first row of the playlist whose boundary columns do not
    convert (or that has fewer than two columns) ends the loading with the
    "boundary values must be integers" report for that row, whatever the
    boundaries of the rows before it: the consistency check has not run
    yet. *)
Theorem read_csv_first_bad_row int pre row post :
  Forall (fun r => convertible int r = true) pre →
  convertible int row = false →
  read_csv int (pre ++ row :: post)
  = Raise (SystemExit (BoundaryNotInteger row)).
Proof.
  intros Hpre Hrow. unfold read_csv, read_rows. rewrite for_in_app.
  destruct (read_rows_prefix int pre [] Hpre) as [sts ->]. simpl.
  apply convertible_convert in Hrow as ->. reflexivity.
Qed.

Lemma read_csv_first_bad_row_witness :
  read_csv int_decimal
    ([["50"; "40"; "A"]%string] ++ ["x"; "9"; "B"]%string :: [["7"]%string])
  = Raise (SystemExit (BoundaryNotInteger ["x"; "9"; "B"]%string)).
Proof.
  apply (read_csv_first_bad_row int_decimal).
  - repeat constructor.
  - reflexivity.
Defined.

(** X2. Whatever rows the csv reader yields, the reading loop, the
    consistency check and the append of the noise entry end normally or
    with the [exit()] of one of the three reports: rows that are too
    short, and tables of any length, raise no [IndexError] there. (Opening
    the file and the csv reader itself are outside this statement.) *)
Theorem read_csv_exits_with_report int playlist e :
  read_csv int playlist = Raise e → ∃ r, e = SystemExit r.
Proof.
  unfold read_csv.
  destruct (read_rows int playlist) as [stations|e'] eqn:Hrows; simpl.
  - destruct (csv_sanity_check stations) as [[]|e'] eqn:Hcheck; [done|].
    simpl. intros [= <-].
    apply csv_sanity_check_raise in Hcheck
      as (i & si & sj & _ & _ & _ & [[_ ->]|(_ & _ & ->)]); eauto.
  - intros [= <-]. unfold read_rows in Hrows.
    apply for_in_raise in Hrows as (_ & row & _ & acc & _ & _ & Hrow).
    destruct (convertible int row) eqn:Hconv.
    + apply convertible_convert in Hconv as [st Hst]. by rewrite Hst in Hrow.
    + apply convertible_convert in Hconv. rewrite Hconv in Hrow.
      injection Hrow as <-. eauto.
Qed.

Lemma read_csv_exits_with_report_witness :
  ∃ r, SystemExit (CheckBoundariesPair 0 1) = SystemExit r.
Proof.
  apply (read_csv_exits_with_report int_decimal overlapping).
  reflexivity.
Defined.

(** X3. An accepted playlist is returned row for row, in order, with one
    more entry at the end: row [i] of the table holds the two converted
    boundaries of playlist row [i] followed by its remaining columns
    unchanged. *)
Theorem read_csv_keeps_rows int playlist sl :
  read_csv int playlist = Ok sl →
  length sl = S (length playlist) ∧
  ∀ i row, playlist !! i = Some row →
    ∃ c0 c1 rest a b,
      row = c0 :: c1 :: rest ∧ int c0 = Some a ∧ int c1 = Some b ∧
      sl !! i = Some (Station a b rest).
Proof.
  intros (stations & Hrows%read_rows_ok & _ & ->)%read_csv_ok.
  pose proof (Forall2_length _ _ _ Hrows) as Hlen. split.
  - rewrite length_app. simpl. lia.
  - intros i row Hrow.
    destruct (Forall2_lookup_l _ _ _ _ _ Hrows Hrow) as (st & Hst & Hconv).
    unfold convert in Hconv. destruct row as [|c0 [|c1 rest]]; try done.
    destruct (int c0) as [a|] eqn:Ha, (int c1) as [b|] eqn:Hb; try done.
    injection Hconv as <-. exists c0, c1, rest, a, b.
    repeat split; try done. by apply lookup_app_l_Some.
Qed.

Lemma read_csv_keeps_rows_witness :
  length (station_list two_stations_radio) = S (length two_stations) ∧
  ∀ i row, two_stations !! i = Some row →
    ∃ c0 c1 rest a b,
      row = c0 :: c1 :: rest ∧
      int_decimal c0 = Some a ∧ int_decimal c1 = Some b ∧
      station_list two_stations_radio !! i = Some (Station a b rest).
Proof.
  apply (read_csv_keeps_rows int_decimal two_stations). reflexivity.
Defined.

(** X4. In an accepted table no position belongs to the ranges of two
    different rows, the unchecked last row included. *)
Theorem accepted_rows_disjoint int playlist sl i j si sj p :
  read_csv int playlist = Ok sl →
  real_rows sl !! i = Some si → real_rows sl !! j = Some sj →
  covers si p → covers sj p → i = j.
Proof.
  intros (stations & _ & Hcheck & ->)%read_csv_ok.
  rewrite real_rows_snoc. unfold covers. intros Hsi Hsj Hpi Hpj.
  destruct (Nat.lt_trichotomy i j) as [Hlt|[->|Hgt]]; [|done|].
  - pose proof (accepted_rows_separated _ Hcheck _ _ _ _ Hlt Hsi Hsj). lia.
  - pose proof (accepted_rows_separated _ Hcheck _ _ _ _ Hgt Hsj Hsi). lia.
Qed.

Lemma accepted_rows_disjoint_witness : 1%nat = 1%nat.
Proof.
  apply (accepted_rows_disjoint int_decimal two_stations
           (station_list two_stations_radio) 1 1
           (Station 100 199 ["B"%string]) (Station 100 199 ["B"%string]) 150).
  - reflexivity.
  - reflexivity.
  - reflexivity.
  - unfold covers. simpl. lia.
  - unfold covers. simpl. lia.
Defined.

Lemma for_in_ext {A S : Type} (xs : list A) (body body' : A → S → result S) s :
  (∀ x t, x ∈ xs → body x t = body' x t) →
  for_in xs body s = for_in xs body' s.
Proof.
  revert s. induction xs as [|x xs IH]; intros s Hext; simpl; [done|].
  rewrite <- (Hext x s) by (by left).
  destruct (body x s); [|done]. apply IH. intros y t Hy. apply Hext. by right.
Qed.

(** X5. The outcome of the check depends only on the lower boundaries of
    the rows and on the upper boundaries of the rows before the last: two
    tables of the same length that agree on these get the same outcome,
    whatever the upper boundary of their last rows and the other columns
    of any of their rows. *)
Theorem last_row_upper_unchecked (stations stations' : list station) :
  length stations = length stations' →
  (∀ i st st', stations !! i = Some st → stations' !! i = Some st' →
     low st = low st' ∧ ((S i < length stations)%nat → upp st = upp st')) →
  csv_sanity_check stations = csv_sanity_check stations'.
Proof.
  intros Hlen Hagree. unfold csv_sanity_check, len. rewrite <- Hlen.
  apply for_in_ext. intros i [] Hi%elem_of_py_range.
  destruct (getitem_nonneg stations i) as (si & Hsi & ->);
    [unfold len; lia|].
  destruct (getitem_nonneg stations' i) as (si' & Hsi' & ->);
    [unfold len; lia|].
  destruct (getitem_nonneg stations (i + 1)) as (sj & Hsj & ->);
    [unfold len; lia|].
  destruct (getitem_nonneg stations' (i + 1)) as (sj' & Hsj' & ->);
    [unfold len; lia|].
  destruct (Hagree _ _ _ Hsi Hsi') as [Hlow Hupp].
  destruct (Hagree _ _ _ Hsj Hsj') as [Hlow' _].
  cbn [mbind result_bind]. rewrite Hlow, Hupp, Hlow' by lia. done.
Qed.

Lemma last_row_upper_unchecked_witness :
  csv_sanity_check [Station 0 99 ["A"%string]; Station 100 199 ["B"%string]]
  = csv_sanity_check [Station 0 99 []; Station 100 7 ["C"; "D"]%string].
Proof.
  apply (last_row_upper_unchecked
           [Station 0 99 ["A"%string]; Station 100 199 ["B"%string]]
           [Station 0 99 []; Station 100 7 ["C"; "D"]%string]).
  - reflexivity.
  - intros [|[|i]] st st' Hst Hst'; cbn in Hst, Hst'; simplify_eq;
      (split; [reflexivity|]); cbn; intros; (reflexivity || lia).
Defined.

(** ** Building the lookup: negative indices and failure *)

Section IndexingNegative.
Context {A : Type}.
Implicit Types (l : list A) (i : Z) (x : A).

Lemma py_index_negative l i :
  - len l ≤ i < 0 → py_index l i = Some (Z.to_nat (len l + i)).
Proof.
  intros Hi. unfold py_index.
  destruct (Z.leb_spec 0 i); [lia|]. simpl.
  destruct (Z.leb_spec (- len l) i), (Z.ltb_spec i 0); simpl; auto; lia.
Qed.

Lemma py_index_too_small l i : i < - len l → py_index l i = None.
Proof.
  intros Hi. unfold py_index. pose proof (Nat2Z.is_nonneg (length l)).
  unfold len in *.
  destruct (Z.leb_spec 0 i); [lia|]. simpl.
  destruct (Z.leb_spec (- Z.of_nat (length l)) i); [lia|done].
Qed.

Lemma setitem_negative l i x :
  - len l ≤ i < 0 → setitem l i x = Ok (<[Z.to_nat (len l + i):=x]> l).
Proof. intros Hi. unfold setitem. by rewrite py_index_negative. Qed.

Lemma setitem_outside l i x :
  i < - len l ∨ len l ≤ i → setitem l i x = Raise IndexError.
Proof.
  intros [Hi|Hi]; unfold setitem;
    [by rewrite py_index_too_small|by rewrite py_index_too_large].
Qed.

End IndexingNegative.

(** One row writes the cells its range reaches, when the range fits the
    indices of the list. *)
Lemma populate_row_indexable (cells : list Z) (line_nr lo up : Z) :
  length cells = scale_size →
  - Z.of_nat scale_size ≤ lo → up ≤ MAX_POS →
  ∃ cells',
    for_in (py_range lo (up + 1))
      (fun p pos2station => setitem pos2station p line_nr) cells = Ok cells' ∧
    length cells' = scale_size ∧
    ∀ p, on_dial p →
         cells' !! Z.to_nat p =
         if decide (lo ≤ p ≤ up ∨ lo ≤ p - Z.of_nat scale_size ≤ up)
         then Some line_nr else cells !! Z.to_nat p.
Proof.
  intros Hlen Hlo Hup. unfold on_dial, scale_size, MIN_POS, MAX_POS in *.
  destruct (Z.le_gt_cases lo (up + 1)) as [Hle|Hgt].
  - destruct (for_in_range_total
                (fun q t => length t = Z.to_nat (1020 + 1 - 0) ∧
                   ∀ p, 0 ≤ p ≤ 1020 →
                     t !! Z.to_nat p =
                     if decide (lo ≤ p < q ∨
                                lo ≤ p - Z.of_nat (Z.to_nat (1020 + 1 - 0)) < q)
                     then Some line_nr else cells !! Z.to_nat p)
                lo (up + 1)
                (fun p pos2station => setitem pos2station p line_nr) cells)
      as (cells' & Hrun & Hlen' & Hcells'); [done| | |].
    + split; [done|]. intros p Hp. case_decide; [lia|done].
    + intros q t Hq [Ht Hcells]. destruct (decide (0 ≤ q)) as [Hq0|Hq0].
      * exists (<[Z.to_nat q:=line_nr]> t). split; [|split].
        -- apply setitem_nonneg. unfold len. lia.
        -- by rewrite length_insert.
        -- intros p Hp. destruct (decide (p = q)) as [->|Hne].
           ++ rewrite list_lookup_insert_eq by lia. case_decide; [done|lia].
           ++ rewrite list_lookup_insert_ne by lia. rewrite Hcells by done.
              repeat case_decide; try done; lia.
      * exists (<[Z.to_nat (len t + q):=line_nr]> t). split; [|split].
        -- apply setitem_negative. unfold len. lia.
        -- by rewrite length_insert.
        -- intros p Hp. unfold len. rewrite Ht.
           destruct (decide (p = 1021 + q)) as [->|Hne].
           ++ replace (Z.to_nat (Z.of_nat (Z.to_nat (1020 + 1 - 0)) + q))
                with (Z.to_nat (1021 + q)) by lia.
              rewrite list_lookup_insert_eq by lia. case_decide; [done|lia].
           ++ rewrite list_lookup_insert_ne by lia. rewrite Hcells by done.
              repeat case_decide; try done; lia.
    + exists cells'. split; [done|]. split; [done|].
      intros p Hp. rewrite Hcells' by done. repeat case_decide; try done; lia.
  - rewrite py_range_empty by lia. exists cells. split; [done|]. split; [done|].
    intros p Hp. case_decide; [lia|done].
Qed.

(** When the range of every row before the last is empty or fits the
    indices of the list, the build completes and each cell holds the
    last row, in table order, whose range reaches it. *)
Lemma populate_indexable sl :
  Forall indexable (real_rows sl) →
  ∃ p2s,
    populate_postostation sl = Ok p2s ∧
    length p2s = scale_size ∧
    ∀ p, on_dial p →
         ∃ v, p2s !! Z.to_nat p = Some v ∧ last_reaching sl (len sl - 1) p v.
Proof.
  intros Hfit. unfold populate_postostation.
  assert (Hrow : ∀ i, 0 ≤ i < len sl - 1 →
            ∃ st, sl !! Z.to_nat i = Some st ∧ getitem sl i = Ok st ∧ indexable st).
  { intros i Hi. destruct (getitem_nonneg sl i) as (st & Hst & Hget); [lia|].
    exists st. split; [done|]. split; [done|].
    eapply Forall_lookup_1; [exact Hfit|].
    unfold real_rows. rewrite lookup_take_lt; [done|]. unfold len in Hi. lia. }
  assert (Hinit : ∀ p, on_dial p →
            ((fun _ : Z => -1) <$> py_range MIN_POS (MAX_POS + 1)) !! Z.to_nat p
            = Some (-1)).
  { intros p Hp. unfold py_range. rewrite list_lookup_fmap, lookup_seqZ_lt; [done|].
    unfold on_dial, MIN_POS, MAX_POS in *. lia. }
  destruct (Z.le_gt_cases 0 (len sl - 1)) as [Hle|Hgt].
  - destruct (for_in_range_total
                (fun k cells => length cells = scale_size ∧
                   ∀ p, on_dial p →
                     ∃ v, cells !! Z.to_nat p = Some v ∧ last_reaching sl k p v)
                0 (len sl - 1)
                (fun line_nr pos2station =>
                   row ← getitem sl line_nr;
                   let low := low row in
                   row' ← getitem sl line_nr;
                   let upp := upp row' in
                   for_in (py_range low (upp + 1))
                     (fun p pos2station => setitem pos2station p line_nr)
                     pos2station)
                ((fun _ => -1) <$> py_range MIN_POS (MAX_POS + 1)))
      as (p2s & Hrun & Hlen & Hcells); [done| | |by exists p2s].
    + split; [apply initial_lookup_length|]. intros p Hp. exists (-1).
      split; [by apply Hinit|]. split; [by left|]. intros j st Hj. lia.
    + intros k cells Hk [Hlen Hcells].
      destruct (Hrow k Hk) as (st & Hst & -> & Hfits). simpl.
      assert (Hstep : ∃ cells',
                for_in (py_range (low st) (upp st + 1))
                  (fun p pos2station => setitem pos2station p k) cells
                = Ok cells' ∧
                length cells' = scale_size ∧
                ∀ p, on_dial p →
                  cells' !! Z.to_nat p =
                  if decide (reaches st p) then Some k else cells !! Z.to_nat p).
      { destruct (decide (low st ≤ upp st)) as [Hord|Hempty].
        - destruct (Hfits Hord) as [Hlo Hup].
          destruct (populate_row_indexable cells k (low st) (upp st))
            as (cells' & Hrun & Hlen' & Hcells'); [done..|].
          exists cells'. split; [done|]. split; [done|].
          intros p Hp. rewrite Hcells' by done. unfold reaches, covers.
          repeat case_decide; try done; tauto.
        - rewrite py_range_empty by lia. exists cells.
          split; [done|]. split; [done|]. intros p Hp.
          unfold reaches, covers. case_decide; [lia|done]. }
      destruct Hstep as (cells' & -> & Hlen' & Hcells').
      exists cells'. split; [done|]. split; [done|].
      intros p Hp. rewrite Hcells' by done. case_decide as Hreach.
      { exists k. split; [done|]. split.
        - right. split; [lia|]. exists st. by split.
        - intros j st' Hj. lia. }
      destruct (Hcells p Hp) as (v & Hv & Hsel & Hlater).
      exists v. split; [done|]. split.
      * destruct Hsel as [->|[Hvk Hsel]]; [by left|right; split; [lia|done]].
      * intros j st' Hj Hst'. destruct (decide (j = k)) as [->|Hne].
        -- rewrite Hst in Hst'. by injection Hst' as <-.
        -- eapply Hlater; [|done]. lia.
  - rewrite py_range_empty by lia. simpl.
    exists ((fun _ => -1) <$> py_range MIN_POS (MAX_POS + 1)).
    split; [done|]. split; [apply initial_lookup_length|].
    intros p Hp. exists (-1). split; [by apply Hinit|].
    split; [by left|]. intros j st Hj. lia.
Qed.

(** A row before the last whose range holds a position no index of the
    list accepts makes the build raise [IndexError]. *)
Lemma populate_not_indexable sl i st q :
  0 ≤ i < len sl - 1 → sl !! Z.to_nat i = Some st →
  low st ≤ q ≤ upp st →
  q < - Z.of_nat scale_size ∨ Z.of_nat scale_size ≤ q →
  populate_postostation sl = Raise IndexError.
Proof.
  intros Hi Hst Hq Hout.
  destruct (populate_postostation sl) as [p2s|e] eqn:Hpop;
    [exfalso|by rewrite (populate_raise _ _ Hpop)].
  revert Hpop. unfold populate_postostation.
  set (body := fun (line_nr : Z) (pos2station : list Z) => _).
  assert (Hkeep : ∀ k t t', body k t = Ok t' → length t' = length t).
  { intros k t t'. subst body. simpl.
    destruct (getitem sl k) as [row|]; [simpl|done].
    apply (for_in_ok_inv (fun u => length u = length t)); [done|].
    intros p u u' _ Hu (n & _ & ->)%setitem_ok. by rewrite length_insert. }
  assert (Hfail : ∀ t t', length t = scale_size → body i t ≠ Ok t').
  { intros t t' Hlen. subst body. simpl.
    rewrite (getitem_lookup sl i st) by (done || lia). simpl.
    rewrite (py_range_middle (low st) (upp st + 1) q) by lia.
    rewrite for_in_app.
    destruct (for_in (py_range (low st) _) _ t) as [u|] eqn:Hpre; [|done].
    apply (for_in_ok_inv (fun u => length u = scale_size)) in Hpre; [|done|].
    - simpl. rewrite setitem_outside; [done|]. unfold len. rewrite Hpre. lia.
    - intros p v v' _ Hv (n & _ & ->)%setitem_ok. by rewrite length_insert. }
  rewrite (py_range_middle 0 (len sl - 1) i) by done. rewrite for_in_app.
  destruct (for_in (py_range 0 i) body _) as [t|] eqn:Hpre; [|done].
  apply (for_in_ok_inv (fun u => length u = scale_size)) in Hpre.
  - simpl. destruct (body i t) as [t'|] eqn:Hrow; [|done].
    by apply Hfail in Hrow.
  - apply initial_lookup_length.
  - intros k u u' _ Hu Hbody. apply Hkeep in Hbody. congruence.
Qed.

Lemma populate_ok_indexable sl p2s :
  populate_postostation sl = Ok p2s → Forall indexable (real_rows sl).
Proof.
  intros Hpop. apply Forall_lookup_2. intros n st Hst Hord.
  unfold real_rows in Hst. apply lookup_take_Some in Hst as [Hst Hn].
  assert (Hi : 0 ≤ Z.of_nat n < len sl - 1) by (unfold len; lia).
  destruct (decide (- Z.of_nat scale_size ≤ low st)) as [Hlo|Hlo].
  - split; [done|]. destruct (decide (upp st ≤ MAX_POS)) as [Hup|Hup]; [done|].
    rewrite (populate_not_indexable sl (Z.of_nat n) st (upp st)) in Hpop;
      [done|done|by rewrite Nat2Z.id|lia|].
    right. unfold scale_size, MIN_POS, MAX_POS in *. lia.
  - rewrite (populate_not_indexable sl (Z.of_nat n) st (low st)) in Hpop;
      [done|done|by rewrite Nat2Z.id|lia|]. left. lia.
Qed.

(** X6. The build completes exactly when every row before the last has an
    empty range or a range within [-1021 .. 1020], the indices a list of
    1021 cells accepts; any other table makes it raise [IndexError]. *)
Theorem build_completes_iff sl :
  (Forall indexable (real_rows sl) →
   ∃ p2s, populate_postostation sl = Ok p2s) ∧
  (¬ Forall indexable (real_rows sl) →
   populate_postostation sl = Raise IndexError).
Proof.
  split.
  - intros (p2s & Hpop & _)%populate_indexable. by exists p2s.
  - intros Hnot. destruct (populate_postostation sl) as [p2s|e] eqn:Hpop.
    + by apply populate_ok_indexable in Hpop.
    + by rewrite (populate_raise _ _ Hpop).
Qed.

Lemma build_completes_iff_witness :
  populate_postostation [Station 1000 1030 ["A"%string]; noise]
  = Raise IndexError.
Proof.
  apply (build_completes_iff [Station 1000 1030 ["A"%string]; noise]).
  intros Hfit. apply Forall_cons in Hfit as [Hrow _].
  unfold indexable, MAX_POS in Hrow. simpl in Hrow. lia.
Defined.

(** X7. In a lookup the build returned, the cell of a position [p] holds
    the number of the last row, in table order, whose range contains [p]
    or the negative index [p - 1021] of the same cell, and the sentinel
    when no row does: later rows overwrite earlier ones, and positions
    below zero land on the cells at the end of the scale. *)
Theorem lookup_last_writer_wins sl p2s p :
  populate_postostation sl = Ok p2s → on_dial p →
  ∃ v, p2s !! Z.to_nat p = Some v ∧
    (v = -1 ∨
     (0 ≤ v < len sl - 1 ∧
      ∃ st, real_rows sl !! Z.to_nat v = Some st ∧ reaches st p)) ∧
    (∀ j st, (Z.to_nat v < j)%nat ∨ v = -1 →
       real_rows sl !! j = Some st → ¬ reaches st p).
Proof.
  intros Hpop Hp.
  destruct (populate_indexable sl (populate_ok_indexable _ _ Hpop))
    as (p2s' & Hpop' & _ & Hcells).
  rewrite Hpop in Hpop'. injection Hpop' as <-.
  destruct (Hcells p Hp) as (v & Hv & Hsel & Hlater).
  exists v. split; [done|]. split.
  - destruct Hsel as [->|[Hvk (st & Hst & Hreach)]]; [by left|right].
    split; [done|]. exists st. split; [|done].
    unfold real_rows. rewrite lookup_take_lt; [done|]. unfold len in Hvk. lia.
  - intros j st Hj Hst. unfold real_rows in Hst.
    apply lookup_take_Some in Hst as [Hst Hlt].
    apply (Hlater (Z.of_nat j)); [|by rewrite Nat2Z.id].
    unfold len. destruct Hsel as [->|[Hvk _]]; destruct Hj; lia.
Qed.

Lemma lookup_last_writer_wins_witness :
  ∃ v, posToStation below_scale_radio !! Z.to_nat 1018 = Some v ∧
    (v = -1 ∨
     (0 ≤ v < len (station_list below_scale_radio) - 1 ∧
      ∃ st, real_rows (station_list below_scale_radio) !! Z.to_nat v = Some st ∧
            reaches st 1018)) ∧
    (∀ j st, (Z.to_nat v < j)%nat ∨ v = -1 →
       real_rows (station_list below_scale_radio) !! j = Some st →
       ¬ reaches st 1018).
Proof.
  apply (lookup_last_writer_wins (station_list below_scale_radio)
           (posToStation below_scale_radio) 1018).
  - vm_compute. reflexivity.
  - unfold on_dial, MIN_POS, MAX_POS. lia.
Defined.

(** ** Which station a position plays *)

(** On a started radio whose rows are on the scale, the row selected at a
    position is the row covering it, and the noise entry when none does. *)
Lemma station_at_on_scale int playlist r p :
  startup int playlist = Ok r →
  Forall on_scale (real_rows (station_list r)) → on_dial p →
  (∀ i st, real_rows (station_list r) !! i = Some st → covers st p →
     station_at r p = Ok st) ∧
  ((∀ st, st ∈ real_rows (station_list r) → ¬ covers st p) →
   station_at r p = Ok noise).
Proof.
  intros [Hcsv Hpop]%startup_ok Hscale Hp.
  destruct (lookup_on_scale _ _ _ Hcsv Hscale) as (p2s & Hpop' & _ & Hcells).
  rewrite Hpop in Hpop'. injection Hpop' as <-.
  destruct (Hcells p Hp) as (v & Hv & Hsel).
  assert (Hres : resolve r p = Ok v).
  { apply getitem_lookup; [|done]. unfold on_dial, MIN_POS in Hp. lia. }
  unfold station_at. rewrite Hres. simpl. split.
  - intros i st Hst Hcov.
    destruct Hsel as [[_ Hnone]|(Hv0 & st' & Hst' & _ & Huniq)].
    + exfalso. eapply Hnone; [|done]. apply list_elem_of_lookup. eauto.
    + rewrite (Huniq i st Hst Hcov) in Hst. simplify_eq.
      apply getitem_lookup; [done|]. unfold real_rows in Hst'.
      by apply lookup_take_Some in Hst' as [Hst' _].
  - intros Hnone. destruct Hsel as [[-> _]|(_ & st & Hst & Hcov & _)].
    + apply read_csv_ok in Hcsv as (stations & _ & _ & ->). apply getitem_last.
    + exfalso. eapply Hnone; [|done]. apply list_elem_of_lookup. eauto.
Qed.

(** X8. On a radio started from a playlist whose rows lie on the scale,
    a position inside the range of a row selects that row, and a position
    inside no range selects the noise entry and its file. *)
Theorem on_scale_selects_covering_row int playlist r p :
  startup int playlist = Ok r →
  Forall on_scale (real_rows (station_list r)) → on_dial p →
  (∀ i st, real_rows (station_list r) !! i = Some st → covers st p →
     station_at r p = Ok st) ∧
  ((∀ st, st ∈ real_rows (station_list r) → ¬ covers st p) →
   station_at r p = Ok noise ∧ url_at r p = Ok NOISE_FILE).
Proof.
  intros Hstart Hscale Hp.
  destruct (station_at_on_scale _ _ _ _ Hstart Hscale Hp) as [Hcov Hnone].
  split; [done|]. intros Hgap. specialize (Hnone Hgap). split; [done|].
  unfold url_at. by rewrite Hnone.
Qed.

Lemma on_scale_selects_covering_row_witness :
  (∀ i st, real_rows (station_list two_stations_radio) !! i = Some st →
     covers st 500 → station_at two_stations_radio 500 = Ok st) ∧
  ((∀ st, st ∈ real_rows (station_list two_stations_radio) → ¬ covers st 500) →
   station_at two_stations_radio 500 = Ok noise ∧
   url_at two_stations_radio 500 = Ok NOISE_FILE).
Proof.
  apply (on_scale_selects_covering_row int_decimal two_stations).
  - vm_compute. reflexivity.
  - repeat constructor; simpl; unfold MIN_POS, MAX_POS; lia.
  - unfold on_dial, MIN_POS, MAX_POS. lia.
Defined.



(** ** Runs of the encoder callback *)

Lemma persisted_app t1 t2 : persisted (t1 ++ t2) = persisted t1 ++ persisted t2.
Proof. unfold persisted. apply omap_app. Qed.

Lemma player_calls_app t1 t2 :
  player_calls (t1 ++ t2) = player_calls t1 ++ player_calls t2.
Proof. unfold player_calls. apply List.filter_app. Qed.

(** A run of steps on a well-formed radio, step by step. *)
Lemma run_spec r ways w :
  well_formed r → on_dial (pos w) → Forall is_step ways →
  ∃ w',
    run (station_list r) (posToStation r) ways w = (Ok tt, w') ∧
    pos w' = foldl (fun p way => p + effective_step p way) (pos w) ways ∧
    persisted (trace w')
    = persisted (trace w) ++ (position_py_content <$> trajectory (pos w) ways) ∧
    (ways ≠ [] → position_py w' = position_py_content (pos w')) ∧
    (∀ v, (∀ q, q ∈ pos w :: trajectory (pos w) ways → resolve r q = Ok v) →
          player_calls (trace w') = player_calls (trace w)).
Proof.
  intros Hr. revert w. induction ways as [|way ways IH]; intros w Hp Hways.
  - exists w. cbn. rewrite app_nil_r. done.
  - apply Forall_cons in Hways as [Hway Hways].
    destruct (callback_spec r way w Hr Hp Hway)
      as (here & there & url & Hhere & Hthere & _ & Hstep).
    set (p' := pos w + effective_step (pos w) way) in *.
    set (w1 := World p' _ _) in Hstep.
    destruct (IH w1) as (w' & Hrun & Hpos & Hfile & Hcontent & Hquiet);
      [by apply effective_step_on_dial|done|].
    exists w'. cbn [run]. unfold mbind, M_bind at 1. rewrite Hstep.
    split; [exact Hrun|]. split; [exact Hpos|]. split; [|split].
    + rewrite Hfile. subst w1. cbn [trace pos trajectory fmap list_fmap].
      rewrite !persisted_app. unfold persist. cbn [persisted omap].
      fold p'. destruct (here =? there); cbn; by rewrite <- !app_assoc.
    + intros _. destruct ways as [|way' ways].
      * cbn in Hrun. injection Hrun as <-. done.
      * by apply Hcontent.
    + intros v Hsame. rewrite (Hquiet v).
      * subst w1. cbn [trace]. rewrite !player_calls_app.
        assert (Ok here = Ok v) as [= ->].
        { rewrite <- Hhere. apply Hsame. by left. }
        assert (Ok there = Ok v) as [= ->].
        { rewrite <- Hthere. apply Hsame. right. by left. }
        rewrite Z.eqb_refl. cbn. by rewrite app_nil_r.
      * intros q Hq. apply Hsame. by right.
Qed.

(** X10. On a radio started from a playlist whose rows have their three
    columns, no sequence of steps from a position of the scale raises an
    exception; the final position is the start moved by each clamped step
    in turn, the position file is written once per step with the position
    reached after that step, and after the last step it holds the final
    position; each text written reads back, through the import of
    [start_position], as the position reached after its step. *)
Theorem run_follows_trajectory int playlist r ways w :
  startup int playlist = Ok r → Forall has_url playlist →
  on_dial (pos w) → Forall is_step ways →
  ∃ w',
    run (station_list r) (posToStation r) ways w = (Ok tt, w') ∧
    pos w' = foldl (fun p way => p + effective_step p way) (pos w) ways ∧
    persisted (trace w')
    = persisted (trace w) ++ (position_py_content <$> trajectory (pos w) ways) ∧
    (ways ≠ [] → position_py w' = position_py_content (pos w')) ∧
    (∃ written,
       persisted (trace w') = persisted (trace w) ++ written ∧
       Forall2 (fun content q => import_start_position content = Ok q)
               written (trajectory (pos w) ways)) ∧
    (ways ≠ [] → import_start_position (position_py w') = Ok (pos w')).
Proof.
  intros Hstart Hurl Hp Hways.
  pose proof (startup_well_formed _ _ _ Hstart Hurl) as Hr.
  destruct (run_spec r ways w Hr Hp Hways)
    as (w' & Hrun & Hpos & Hfile & Hcontent & _).
  exists w'. split; [done|]. split; [done|]. split; [done|]. split; [done|].
  split.
  - exists (position_py_content <$> trajectory (pos w) ways). split; [done|].
    apply Forall2_fmap_l, Forall_Forall2_diag, Forall_forall.
    intros q _. apply import_position_py_content.
  - intros Hne. rewrite (Hcontent Hne). apply import_position_py_content.
Qed.

Lemma run_follows_trajectory_witness :
  ∃ w',
    run (station_list two_stations_radio) (posToStation two_stations_radio)
        [1; -1; -1] (World 0 "" []) = (Ok tt, w') ∧
    pos w' = foldl (fun p way => p + effective_step p way) 0 [1; -1; -1] ∧
    persisted (trace w')
    = persisted [] ++ (position_py_content <$> trajectory 0 [1; -1; -1]) ∧
    ([1; -1; -1] ≠ [] → position_py w' = position_py_content (pos w')) ∧
    (∃ written,
       persisted (trace w') = persisted [] ++ written ∧
       Forall2 (fun content q => import_start_position content = Ok q)
               written (trajectory 0 [1; -1; -1])) ∧
    ([1; -1; -1] ≠ [] → import_start_position (position_py w') = Ok (pos w')).
Proof.
  apply (run_follows_trajectory int_decimal two_stations two_stations_radio
           [1; -1; -1] (World 0 "" [])).
  - vm_compute. reflexivity.
  - repeat constructor.
  - unfold on_dial, MIN_POS, MAX_POS. simpl. lia.
  - repeat constructor; unfold is_step; lia.
Defined.

(** X11. On such a radio, a sequence of steps along which every visited
    position, the start included, has the same cell in the lookup makes
    no call to the player at all. *)
Theorem no_crossing_no_player_call int playlist r ways w v :
  startup int playlist = Ok r → Forall has_url playlist →
  on_dial (pos w) → Forall is_step ways →
  (∀ q, q ∈ pos w :: trajectory (pos w) ways → resolve r q = Ok v) →
  player_calls (trace (run (station_list r) (posToStation r) ways w).2)
  = player_calls (trace w).
Proof.
  intros Hstart Hurl Hp Hways Hsame.
  pose proof (startup_well_formed _ _ _ Hstart Hurl) as Hr.
  destruct (run_spec r ways w Hr Hp Hways) as (w' & -> & _ & _ & _ & Hquiet).
  by apply (Hquiet v).
Qed.

Lemma no_crossing_no_player_call_witness :
  player_calls
    (trace (run (station_list two_stations_radio)
              (posToStation two_stations_radio) [1; 1; -1]
              (World 97 "" [])).2)
  = player_calls [].
Proof.
  apply (no_crossing_no_player_call int_decimal two_stations two_stations_radio
           [1; 1; -1] (World 97 "" []) 0).
  - vm_compute. reflexivity.
  - repeat constructor.
  - unfold on_dial, MIN_POS, MAX_POS. simpl. lia.
  - repeat constructor; unfold is_step; lia.
  - intros q Hq. vm_compute in Hq.
    repeat (apply elem_of_cons in Hq as [->|Hq]; [vm_compute; reflexivity|]).
    by apply elem_of_nil in Hq.
Defined.

(** ** Positions off the scale *)

Lemma getitem_outside {A : Type} (l : list A) i :
  i < - len l ∨ len l ≤ i → getitem l i = Raise IndexError.
Proof.
  intros [Hi|Hi]; unfold getitem;
    [by rewrite py_index_too_small|by rewrite py_index_too_large].
Qed.

(** X12. With a lookup the build returned, a callback that finds [pos]
    above [MAX_POS] (or below [-1021]) raises [IndexError] at its first
    read of the lookup, whatever the step: the position is not moved back
    onto the scale, the player is not called and the position file is not
    written. *)
Theorem callback_off_scale_raises sl p2s way w :
  populate_postostation sl = Ok p2s →
  MAX_POS < pos w ∨ pos w < - Z.of_nat scale_size →
  callback_rotary_encoder sl p2s way w = (Raise IndexError, w).
Proof.
  intros [Hlen _]%populate_cells Hoff.
  unfold callback_rotary_encoder, mbind, M_bind, get_pos, lift.
  rewrite getitem_outside; [done|]. unfold len. rewrite Hlen.
  unfold scale_size, MIN_POS, MAX_POS in *. lia.
Qed.

Lemma callback_off_scale_raises_witness :
  callback_rotary_encoder (station_list two_stations_radio)
    (posToStation two_stations_radio) (-1) (World 1021 "" [])
  = (Raise IndexError, World 1021 "" []).
Proof.
  apply (callback_off_scale_raises (station_list two_stations_radio)
           (posToStation two_stations_radio) (-1) (World 1021 "" [])).
  - vm_compute. reflexivity.
  - left. unfold MAX_POS. simpl. lia.
Defined.

(** ** Restarting the script *)




(** X14. A position file holding a position above [MAX_POS] (or below
    [-1021]) stops the script at its first [play] with [IndexError], on
    any playlist the loader and the build accept. *)
Theorem script_off_scale_raises int playlist r x :
  startup int playlist = Ok r →
  MAX_POS < x ∨ x < - Z.of_nat scale_size →
  script int playlist (position_py_content x) = Raise IndexError.
Proof.
  intros Hstart Hoff. unfold script. rewrite import_position_py_content.
  cbn [mbind result_bind]. rewrite Hstart. cbn [mbind result_bind].
  apply startup_ok in Hstart as [_ [Hlen _]%populate_cells].
  unfold play_saved_position, mbind, M_bind, get_pos, lift. cbn [pos].
  rewrite getitem_outside; [done|]. unfold len. rewrite Hlen.
  unfold scale_size, MIN_POS, MAX_POS in *. lia.
Qed.

Lemma script_off_scale_raises_witness :
  script int_decimal two_stations (position_py_content 1021)
  = Raise IndexError.
Proof.
  apply (script_off_scale_raises int_decimal two_stations two_stations_radio).
  - vm_compute. reflexivity.
  - left. unfold MAX_POS. lia.
Defined.

(** ** The button between encoder steps *)

(** The encoder callback reads only [pos] of the world, and appends to the
    trace: two worlds that agree on [pos] give the same result, position
    and file content, and the same new events. *)
Lemma callback_reads_pos_only sl p2s way p f1 f2 t1 t2 :
  ∃ res p' content evs,
    (callback_rotary_encoder sl p2s way (World p f1 t1)).1 = res ∧
    (callback_rotary_encoder sl p2s way (World p f2 t2)).1 = res ∧
    (callback_rotary_encoder sl p2s way (World p f1 t1)).2
    = World p' (default f1 content) (t1 ++ evs) ∧
    (callback_rotary_encoder sl p2s way (World p f2 t2)).2
    = World p' (default f2 content) (t2 ++ evs).
Proof.
  unfold callback_rotary_encoder, play, write_position_files,
    write_file_position_py, mbind, M_bind, get_pos, lift, set_pos, emit.
  cbn [pos position_py trace fst snd].
  destruct (getitem p2s p) as [here|e];
    [|exists (Raise e), p, None, []; by rewrite !app_nil_r].
  destruct (getitem p2s (p + _)) as [there|e];
    [|exists (Raise e), p, None, []; by rewrite !app_nil_r].
  destruct (negb (here =? there)); cbn [pos position_py trace fst snd].
  - destruct (getitem sl there) as [row|e];
      [|eexists (Raise e), _, None, []; by rewrite !app_nil_r].
    destruct (col2 row) as [url|e];
      [|eexists (Raise e), _, None, []; by rewrite !app_nil_r].
    cbn [pos position_py trace fst snd].
    eexists (Ok tt), _, (Some _), (playback url ++ [_]).
    unfold playback. rewrite <- !app_assoc. cbn [default app]. done.
  - eexists (Ok tt), _, (Some _), [_]. cbn [default]. done.
Qed.

Lemma M_bind_apply {A B : Type} (m : M A) (k : A → M B) w :
  (m ≫= k) w =
  match m w with
  | (Ok a, w') => k a w'
  | (Raise e, w') => (Raise e, w')
  end.
Proof. reflexivity. Qed.

Lemma turns_turn way inputs : turns (turn way :: inputs) = way :: turns inputs.
Proof. reflexivity. Qed.

Lemma turns_press pin playing inputs :
  turns (press pin playing :: inputs) = turns inputs.
Proof. reflexivity. Qed.

(** X15. Pressing the button between encoder steps, any number of times
    and whatever the player answers, changes neither the outcome of the
    steps, nor the position they reach, nor what they write to the
    position file: only calls to the player are added. *)
Theorem button_leaves_position sl p2s inputs w :
  (serve sl p2s inputs w).1 = (run sl p2s (turns inputs) w).1 ∧
  pos (serve sl p2s inputs w).2 = pos (run sl p2s (turns inputs) w).2 ∧
  position_py (serve sl p2s inputs w).2
  = position_py (run sl p2s (turns inputs) w).2 ∧
  persisted (trace (serve sl p2s inputs w).2)
  = persisted (trace (run sl p2s (turns inputs) w).2).
Proof.
  destruct w as [p f t].
  assert (Hgen : ∀ t1 t2, persisted t1 = persisted t2 →
    (serve sl p2s inputs (World p f t1)).1
    = (run sl p2s (turns inputs) (World p f t2)).1 ∧
    pos (serve sl p2s inputs (World p f t1)).2
    = pos (run sl p2s (turns inputs) (World p f t2)).2 ∧
    position_py (serve sl p2s inputs (World p f t1)).2
    = position_py (run sl p2s (turns inputs) (World p f t2)).2 ∧
    persisted (trace (serve sl p2s inputs (World p f t1)).2)
    = persisted (trace (run sl p2s (turns inputs) (World p f t2)).2));
    [|by apply Hgen].
  revert p f. induction inputs as [|[way|pin playing] inputs IH];
    intros p f t1 t2 Ht.
  - done.
  - rewrite turns_turn. cbn [serve run]. rewrite !M_bind_apply.
    destruct (callback_reads_pos_only sl p2s way p f f t1 t2)
      as (res & p' & content & evs & Hr1 & Hr2 & Hw1 & Hw2).
    destruct (callback_rotary_encoder sl p2s way (World p f t1)) as [r1 w1].
    destruct (callback_rotary_encoder sl p2s way (World p f t2)) as [r2 w2].
    cbn [fst snd] in *. subst r1 r2 w1 w2.
    destruct res as [[]|e].
    + cbv beta iota. apply IH. by rewrite !persisted_app, Ht.
    + cbn [fst snd pos position_py trace]. by rewrite !persisted_app, Ht.
  - rewrite turns_press. cbn [serve]. rewrite !M_bind_apply.
    unfold callback_button.
    destruct (playing =? 1); unfold emit; cbn [pos position_py trace];
      cbv beta iota; apply IH; by rewrite persisted_app, app_nil_r.
Qed.

(** ** More on the position file and on accepted tables *)

(** X16. Two different positions never give the same content of the
    position file. *)
Theorem position_py_content_inj x y :
  position_py_content x = position_py_content y → x = y.
Proof.
  intros Heq. pose proof (import_position_py_content x) as Hx.
  rewrite Heq, import_position_py_content in Hx. by injection Hx.
Qed.

Lemma position_py_content_inj_witness : 7 = 7.
Proof. apply (position_py_content_inj 7 7). reflexivity. Defined.

(** X17. The rows of an accepted table are in strictly ascending order of
    their lower boundaries. *)
Theorem accepted_rows_ascending int playlist sl i j si sj :
  read_csv int playlist = Ok sl →
  real_rows sl !! i = Some si → real_rows sl !! j = Some sj →
  (i < j)%nat → low si < low sj.
Proof.
  intros (stations & _ & Hcheck & ->)%read_csv_ok.
  rewrite real_rows_snoc. intros Hsi Hsj Hij.
  pose proof (accepted_rows_separated _ Hcheck _ _ _ _ Hij Hsi Hsj) as Hsep.
  destruct (lookup_lt_is_Some_2 stations (S i)) as [sk Hsk].
  { apply lookup_lt_Some in Hsj. lia. }
  rewrite csv_sanity_check_ok in Hcheck.
  destruct (Hcheck _ _ _ Hsi Hsk). lia.
Qed.

Lemma accepted_rows_ascending_witness :
  low (Station 0 99 ["A"%string]) < low (Station 100 199 ["B"%string]).
Proof.
  apply (accepted_rows_ascending int_decimal two_stations
           (station_list two_stations_radio) 0 1).
  - reflexivity.
  - reflexivity.
  - reflexivity.
  - lia.
Defined.

Lemma read_rows_convertible int playlist :
  Forall (fun row => convertible int row = true) playlist →
  ∃ stations, read_rows int playlist = Ok stations.
Proof. intros Hrows. by apply read_rows_prefix. Qed.

(** X18. Loading accepts every playlist whose rows all convert, each row
    but the last having [low <= upp] and ending strictly below the start
    of the next: it returns those rows followed by the noise entry. *)
Theorem read_csv_accepts int playlist stations :
  read_rows int playlist = Ok stations →
  (∀ i si sj, stations !! i = Some si → stations !! S i = Some sj →
              low si ≤ upp si ∧ upp si < low sj) →
  read_csv int playlist = Ok (stations ++ [noise]).
Proof.
  intros Hrows Hok%csv_sanity_check_ok. unfold read_csv.
  rewrite Hrows. cbn [mbind result_bind]. by rewrite Hok.
Qed.

Lemma read_csv_accepts_witness :
  read_csv int_decimal two_stations
  = Ok ([Station 0 99 ["A"%string]; Station 100 199 ["B"%string]] ++ [noise]).
Proof.
  apply (read_csv_accepts int_decimal two_stations).
  - reflexivity.
  - intros [|[|i]] si sj Hsi Hsj; cbn in Hsi, Hsj; simplify_eq; simpl; lia.
Defined.
